(** * The facets filter-expression builder of labrinth-client

    A shallow embedding of package [facets]: the comparison instances
    ([facetProp], behind the [FacetProp] interface) and the expression
    builder ([facets], behind [FacetsBuilder]), with the properties of
    their serialization.

    Both kinds of object are handled through Go pointers and are mutated
    in place by methods that hand back their receiver, so the embedding
    keeps an explicit store of objects and threads it through every call
    with a small state-and-panic monad. *)

From Stdlib Require Import Ascii String.
From stdpp Require Import base option list gmap strings pretty.

Local Open Scope string_scope.
Local Open Scope list_scope.

(** ** Strings of the Go runtime and of [fmt], [strings] and [lo] *)

(** The double-quote byte (code 34), which the raw Go literals of the
    package contain. *)
Definition dquote : string := String "034"%char EmptyString.

(** A text between two double quotes, for writing expected outputs. *)
Definition quoted (s : string) : string := dquote +:+ s +:+ dquote.

(** [strings.Join(elems, sep)]. *)
Definition strings_Join (elems : list string) (sep : string) : string :=
  String.concat sep elems.

(** [fmt.Sprintf] for formats made of literal bytes and the [%s] verb, the
    only verb of the package, applied to string operands.  A verb without
    operand prints [%!s(MISSING)] and operands left over at the end of the
    format are reported in an [%!(EXTRA ...)] suffix, as [fmt] does. *)
Definition Sprintf_extra (a : list string) : string :=
  match a with
  | [] => EmptyString
  | _ => "%!(EXTRA " +:+ String.concat ", " (map (λ v, "string=" +:+ v) a) +:+ ")"
  end.

Fixpoint Sprintf (format : string) (a : list string) : string :=
  match format with
  | EmptyString => Sprintf_extra a
  | String "%" (String "s" rest) =>
      match a with
      | v :: a' => v +:+ Sprintf rest a'
      | [] => "%!s(MISSING)" +:+ Sprintf rest []
      end
  | String c rest => String c (Sprintf rest a)
  end.

(** ** Objects and the store *)

Abbreviation loc := positive.

(** [type facetProp struct { key string; state []string }] *)
Record facetProp := mkFacetProp {
  key : string;
  state : list string
}.

(** [type propList []FacetProp]: the members are references. *)
Abbreviation propList := (list loc).

(** [type facets struct { state []string; props []propList }].  The first
    field is declared but no method of the package reads or writes it. *)
Record facets := mkFacets {
  facets_state : list string;
  props : list propList
}.

(** The objects that live behind pointers.  A reference that is not in the
    store stands for a nil [FacetProp] or [FacetsBuilder]. *)
Record store := mkStore {
  comparisons : gmap loc facetProp;
  builders : gmap loc facets
}.

(** ** The monad: store passing, [None] for a run-time panic *)

Definition M (A : Type) : Type := store → option (A * store).

Definition ret {A} (a : A) : M A := λ σ, Some (a, σ).

Definition bind {A B} (k : A → M B) (m : M A) : M B :=
  λ σ, match m σ with
       | Some (a, σ') => k a σ'
       | None => None
       end.

#[global] Instance M_ret : MRet M := @ret.
#[global] Instance M_bind : MBind M := @bind.

(** Reading through a pointer: a nil dereference panics. *)
Definition load_prop (f : loc) : M facetProp :=
  λ σ, match comparisons σ !! f with
       | Some p => Some (p, σ)
       | None => None
       end.

Definition store_prop (f : loc) (p : facetProp) : M unit :=
  λ σ, Some (tt, mkStore (<[f := p]> (comparisons σ)) (builders σ)).

Definition load_facets (f : loc) : M facets :=
  λ σ, match builders σ !! f with
       | Some b => Some (b, σ)
       | None => None
       end.

Definition store_facets (f : loc) (b : facets) : M unit :=
  λ σ, Some (tt, mkStore (comparisons σ) (<[f := b]> (builders σ))).

(** [&facetProp{...}] and [&facets{}]: a new object at an unused address. *)
Definition new_prop (p : facetProp) : M loc :=
  λ σ, let f := fresh (dom (comparisons σ)) in
       Some (f, mkStore (<[f := p]> (comparisons σ)) (builders σ)).

Definition new_facets (b : facets) : M loc :=
  λ σ, let f := fresh (dom (builders σ)) in
       Some (f, mkStore (comparisons σ) (<[f := b]> (builders σ))).

(** [for _, v := range s { body }] *)
Fixpoint range {A} (s : list A) (body : A → M unit) : M unit :=
  match s with
  | [] => ret tt
  | v :: s' => body v;; range s' body
  end.

(** [lo.Map(collection, iteratee)]: the iteratee receives the element and
    its index, and the results are collected in order. *)
Fixpoint lo_Map_from {A B} (i : nat) (collection : list A)
    (iteratee : A → nat → M B) : M (list B) :=
  match collection with
  | [] => ret []
  | x :: rest =>
      y ← iteratee x i;
      ys ← lo_Map_from (S i) rest iteratee;
      ret (y :: ys)
  end.

Definition lo_Map {A B} (collection : list A) (iteratee : A → nat → M B)
    : M (list B) :=
  lo_Map_from 0 collection iteratee.

(** ** Comparison instances: [facetProp] *)

(** [newFacetProp(key)] is a closure; running it allocates the instance,
    whose [state] is the nil slice. *)
Definition newFacetProp (k : string) : M loc :=
  new_prop (mkFacetProp k []).

Definition ProjectType : M loc := newFacetProp "project_type".
Definition Versions : M loc := newFacetProp "versions".
Definition Categories : M loc := newFacetProp "categories".
Definition ClientSide : M loc := newFacetProp "client_side".
Definition ServerSide : M loc := newFacetProp "server_side".
Definition OpenSource : M loc := newFacetProp "open_source".

(** [func (f *facetProp) String() string] *)
Definition facetProp_String (f : loc) : M string :=
  p ← load_prop f;
  ret (strings_Join (state p) ",").

(** The loop body shared in shape by the six operator methods:
    [f.state = append(f.state, fmt.Sprintf(format, f.key, v))]. *)
Definition append_clause (format : string) (f : loc) (v : string) : M unit :=
  p ← load_prop f;
  store_prop f (mkFacetProp (key p) (state p ++ [Sprintf format [key p; v]])).

Definition Equal (f : loc) (s : list string) : M loc :=
  range s (append_clause (dquote +:+ "%s=%s" +:+ dquote) f);; ret f.

Definition NotEqual (f : loc) (s : list string) : M loc :=
  range s (append_clause (dquote +:+ "%s!=%s" +:+ dquote) f);; ret f.

Definition Less (f : loc) (s : list string) : M loc :=
  range s (append_clause (dquote +:+ "%s<%s" +:+ dquote) f);; ret f.

Definition LessOrEqual (f : loc) (s : list string) : M loc :=
  range s (append_clause (dquote +:+ "%s<=%s" +:+ dquote) f);; ret f.

Definition Greater (f : loc) (s : list string) : M loc :=
  range s (append_clause (dquote +:+ "%s>%s" +:+ dquote) f);; ret f.

Definition GreaterOrEqual (f : loc) (s : list string) : M loc :=
  range s (append_clause (dquote +:+ "%s>=%s" +:+ dquote) f);; ret f.

(** ** Groups and the builder: [propList] and [facets] *)

(** [func (p propList) String() string] *)
Definition propList_String (p : propList) : M string :=
  s ← lo_Map p (λ p _, facetProp_String p);
  ret (strings_Join s ",").

(** [func (f *facets) And(props ...FacetProp) FacetsBuilder].  The variadic
    arguments become the new group as they are; the group is a list of
    references, so later calls on a member show in the group. *)
Definition And (f : loc) (ps : propList) : M loc :=
  b ← load_facets f;
  store_facets f (mkFacets (facets_state b) (props b ++ [ps]));;
  ret f.

(** [func New(props ...FacetProp) FacetsBuilder] *)
Definition New (ps : propList) : M loc :=
  f ← new_facets (mkFacets [] []);
  (if decide (length ps ≠ 0) then And f ps;; ret tt else ret tt);;
  ret f.

(** [func (f *facets) String() string]; [facets_String_group] is the
    function literal it hands to [lo.Map]. *)
Definition facets_String_group (e : propList) (_ : nat) : M string :=
  x ← propList_String e;
  ret (Sprintf "[%s]" [x]).

Definition facets_String (f : loc) : M string :=
  b ← load_facets f;
  s ← lo_Map (props b) facets_String_group;
  ret (Sprintf "[%s]" [strings_Join s ","]).

(** ** The operators of the data model

    The source has no operator type: each operator is a method with its own
    format string.  [operator] names the six methods so that statements can
    range over them; [symbol] is the table of the specification. *)

Inductive operator :=
  | OpEqual | OpNotEqual | OpLess | OpLessOrEqual | OpGreater | OpGreaterOrEqual.

Definition symbol (o : operator) : string :=
  match o with
  | OpEqual => "="
  | OpNotEqual => "!="
  | OpLess => "<"
  | OpLessOrEqual => "<="
  | OpGreater => ">"
  | OpGreaterOrEqual => ">="
  end.

Definition method (o : operator) : loc → list string → M loc :=
  match o with
  | OpEqual => Equal
  | OpNotEqual => NotEqual
  | OpLess => Less
  | OpLessOrEqual => LessOrEqual
  | OpGreater => Greater
  | OpGreaterOrEqual => GreaterOrEqual
  end.

(** A rendered clause as the specification writes it:
    the key, the symbol and the operand between two double quotes. *)
Definition clause (k : string) (o : operator) (v : string) : string :=
  dquote +:+ k +:+ symbol o +:+ v +:+ dquote.

(** A fluent chain [f.op1(s1...).op2(s2...)...]: every call is made on the
    value the previous one returned. *)
Fixpoint chain (f : loc) (calls : list (operator * list string)) : M loc :=
  match calls with
  | [] => ret f
  | (o, s) :: rest => f' ← method o f s; chain f' rest
  end.

(** The store in which instance [f], which held [p], has received the
    clauses [cs] after those it had. *)
Definition with_clauses (σ : store) (f : loc) (p : facetProp)
    (cs : list string) : store :=
  mkStore (<[f := mkFacetProp (key p) (state p ++ cs)]> (comparisons σ))
          (builders σ).

(** ** What a builder holds, and the serialization of the specification *)

(** What a builder holds, read through the store in insertion order: for
    every group, for every member, the member's clause list.  [None] when
    the builder or one of the members is not a live object. *)
Definition clauses_of (σ : store) (f : loc) : option (list string) :=
  state <$> comparisons σ !! f.

Definition group_contents (σ : store) (g : propList)
    : option (list (list string)) :=
  mapM (clauses_of σ) g.

Definition contents (σ : store) (b : loc)
    : option (list (list (list string))) :=
  builders σ !! b ≫= λ g, mapM (group_contents σ) (props g).

(** The serialization in the words of the specification: each member's
    clause list joined with commas, the members of a group joined with
    commas and wrapped in one bracket pair, the bracketed groups joined with
    commas and wrapped in one outer bracket pair. *)
Definition render_comparison (cs : list string) : string :=
  strings_Join cs ",".

Definition render_members (g : list (list string)) : string :=
  strings_Join (map render_comparison g) ",".

Definition render_group (g : list (list string)) : string :=
  "[" +:+ render_members g +:+ "]".

Definition render (gs : list (list (list string))) : string :=
  "[" +:+ strings_Join (map render_group gs) "," +:+ "]".

(** The second serialization example of the specification: two groups, each
    of one comparison with two operands of [Equal]. *)
Definition two_groups : M string :=
  p1 ← newFacetProp "k1";
  Equal p1 ["a"; "b"];;
  p2 ← newFacetProp "k2";
  Equal p2 ["c"; "d"];;
  b ← New [p1];
  And b [p2];;
  facets_String b.

Definition two_groups_text : string :=
  "[[" +:+ quoted "k1=a" +:+ "," +:+ quoted "k1=b" +:+ "],["
  +:+ quoted "k2=c" +:+ "," +:+ quoted "k2=d" +:+ "]]".

(** ** A small store for concrete instances

    One comparison with key [categories] that received [Equal("fabric")],
    one comparison on which no operator was called, and two builders: the
    first holds one group with the first comparison, the second holds no
    group. *)
Definition sample_prop : facetProp :=
  mkFacetProp "categories" [quoted "categories=fabric"].

Definition sample_store : store :=
  mkStore (<[2%positive := mkFacetProp "versions" []]> {[1%positive := sample_prop]})
          (<[2%positive := mkFacets [] []]>
             {[1%positive := mkFacets [] [[1%positive]]]}).

(** ** The output grammar of the specification

    [outer := "[" group ("," group)* "]" | "[]"],
    [group := "[" clause ("," clause)* "]" | "[]"],
    [clause := quote key operator value quote]. *)
Definition is_clause (s : string) : Prop :=
  ∃ k o v, s = dquote +:+ k +:+ symbol o +:+ v +:+ dquote.

Definition is_group (s : string) : Prop :=
  s = "[]"
  ∨ ∃ c cs, Forall is_clause (c :: cs)
            ∧ s = "[" +:+ strings_Join (c :: cs) "," +:+ "]".

Definition is_outer (s : string) : Prop :=
  s = "[]"
  ∨ ∃ g gs, Forall is_group (g :: gs)
            ∧ s = "[" +:+ strings_Join (g :: gs) "," +:+ "]".

(** ** Constructors

    What it is for [c] to be a constructor of independent instances with
    key [k]: in every store, [c] returns a reference [f] that no instance
    occupied, puts there the key [k] with no clause, and touches nothing
    else.  The new instance is then distinct from every instance [f'] that
    existed before (such as the result of an earlier invocation), and an
    operator call on either of the two leaves the other as it was. *)
Definition constructs_independent (c : M loc) (k : string) : Prop :=
  ∀ σ, ∃ f σ',
    c σ = Some (f, σ')
    ∧ comparisons σ !! f = None
    ∧ comparisons σ' = <[f := mkFacetProp k []]> (comparisons σ)
    ∧ builders σ' = builders σ
    ∧ ∀ f' p', comparisons σ !! f' = Some p' →
        f' ≠ f
        ∧ ∀ o s,
            (∃ σ'', method o f s σ' = Some (f, σ'')
                    ∧ comparisons σ'' !! f' = Some p')
            ∧ (∃ σ'', method o f' s σ' = Some (f', σ'')
                      ∧ comparisons σ'' !! f = Some (mkFacetProp k [])).

(** ** Client code as a sequence of calls

    To speak of two builders made by the same calls, the calls a client
    makes on one builder are written down as data.  The comparison
    instances are named by their order of creation; a call that names an
    instance not yet created is not a program, and does not run. *)
Inductive call :=
  | NewComparison (k : string)
  | Compare (x : nat) (o : operator) (s : list string)
  | AddGroup (xs : list nat).

Definition lift_option {A} (o : option A) : M A :=
  λ σ, (λ a, (a, σ)) <$> o.

Definition run_call (b : loc) (env : list loc) (c : call) : M (list loc) :=
  match c with
  | NewComparison k => f ← newFacetProp k; ret (env ++ [f])
  | Compare x o s => f ← lift_option (env !! x); method o f s;; ret env
  | AddGroup xs =>
      ps ← lift_option (mapM (λ x, env !! x) xs); And b ps;; ret env
  end.

Fixpoint run_calls (b : loc) (env : list loc) (cs : list call)
    : M (list loc) :=
  match cs with
  | [] => ret env
  | c :: cs' => env' ← run_call b env c; run_calls b env' cs'
  end.

(** [New()], the calls, then [String()]. *)
Definition build (cs : list call) : M string :=
  b ← New [];
  run_calls b [] cs;;
  facets_String b.

(** The same calls read without a store: the instances in creation order
    and the groups as lists of instance names. *)
Record image := mkImage {
  instances : list facetProp;
  groups : list (list nat)
}.

Definition image_call (a : image) (c : call) : option image :=
  match c with
  | NewComparison k =>
      Some (mkImage (instances a ++ [mkFacetProp k []]) (groups a))
  | Compare x o s =>
      p ← instances a !! x;
      Some (mkImage
              (<[x := mkFacetProp (key p) (state p ++ map (clause (key p) o) s)]>
                 (instances a))
              (groups a))
  | AddGroup xs =>
      if decide (Forall (λ x, x < length (instances a)) xs)
      then Some (mkImage (instances a) (groups a ++ [xs]))
      else None
  end.

Fixpoint image_calls (a : image) (cs : list call) : option image :=
  match cs with
  | [] => Some a
  | c :: cs' => a' ← image_call a c; image_calls a' cs'
  end.

Definition image_text (a : image) : option string :=
  render <$> mapM (mapM (λ x, state <$> instances a !! x)) (groups a).

Definition build_text (cs : list call) : option string :=
  image_calls (mkImage [] []) cs ≫= image_text.

(** A store, a builder and the references of the instances created so far
    represent an image. *)
Definition represents (σ : store) (b : loc) (env : list loc) (a : image)
    : Prop :=
  NoDup env
  ∧ Forall2 (λ f p, comparisons σ !! f = Some p) env (instances a)
  ∧ ∃ g, builders σ !! b = Some g
         ∧ Forall2 (Forall2 (λ f x, env !! x = Some f)) (props g) (groups a).

(** Two programs that add the same two groups in the two possible orders. *)
Definition two_orders (first second : list nat) : list call :=
  [NewComparison "versions"; Compare 0 OpEqual ["1.19.4"];
   NewComparison "categories"; Compare 1 OpEqual ["fabric"];
   AddGroup first; AddGroup second].

(** ** Liveness and growth of a store *)

(** The builder [b] is a live object and so is every member of every one of
    its groups. *)
Definition live_members (σ : store) (b : loc) : Prop :=
  ∃ g, builders σ !! b = Some g
       ∧ Forall (Forall (λ f, is_Some (comparisons σ !! f))) (props g).

(** [σ'] keeps what [σ] holds: every instance is still there with its key
    and its clauses, possibly followed by more, and every builder is still
    there with its groups, possibly followed by more. *)
Definition grows (σ σ' : store) : Prop :=
  (∀ f p, comparisons σ !! f = Some p →
          ∃ p', comparisons σ' !! f = Some p'
                ∧ key p' = key p ∧ state p `prefix_of` state p')
  ∧ (∀ b g, builders σ !! b = Some g →
            ∃ g', builders σ' !! b = Some g' ∧ props g `prefix_of` props g').

(** One call of the package that returns, from store to store. *)
Inductive api_call : store → store → Prop :=
  | call_newFacetProp k σ f σ' :
      newFacetProp k σ = Some (f, σ') → api_call σ σ'
  | call_method o f s σ r σ' :
      method o f s σ = Some (r, σ') → api_call σ σ'
  | call_facetProp_String f σ t σ' :
      facetProp_String f σ = Some (t, σ') → api_call σ σ'
  | call_New ps σ b σ' :
      New ps σ = Some (b, σ') → api_call σ σ'
  | call_And b ps σ r σ' :
      And b ps σ = Some (r, σ') → api_call σ σ'
  | call_facets_String b σ t σ' :
      facets_String b σ = Some (t, σ') → api_call σ σ'.

(** Every clause that the instances of the store hold is a clause of the
    output grammar. *)
Definition clauses_ok (σ : store) : Prop :=
  ∀ f p, comparisons σ !! f = Some p → Forall is_clause (state p).

(** * Package labrinth: the HTTP client

    The client code is embedded relative to the Go libraries it calls
    ([net/http], [net/url], [io], [context], [go-querystring], the JSON
    functions the user installs): their values are abstract types and
    their functions are the fields of [GoLib].  What the package itself
    does between those calls (guards, clamping, header defaults, error
    classification, nil dereferences) is embedded as written. *)
Module labrinth.

(** Running a piece of Go code ends in a return or in a panic. *)
Inductive outcome (X : Type) : Type :=
  | Panic
  | Return (x : X).
Arguments Panic {X}.
Arguments Return {X} x.

(** A pair [(value, err)] returned by a library function of which the
    caller reads the value only when [err] is nil. *)
Inductive result (E X : Type) : Type :=
  | Ok (x : X)
  | Err (e : E).
Arguments Ok {E X} x.
Arguments Err {E X} e.

Class GoTypes := {
  (** the network, the heap of decoded values, the clock *)
  world : Type;
  (** Go values passed as [any], pointers to decoding targets among them *)
  any : Type;
  (** errors made by the libraries *)
  lib_error : Type;
  URL : Type;
  HTTPClient : Type;
  Ctx : Type;
  (** [io.Reader] values other than [*bytes.Reader] *)
  Reader : Type;
  (** an [http.Request] without its header *)
  RawRequest : Type;
  (** an [http.Response] without status code, header and body *)
  RawResponse : Type;
  Body : Type;
  Values : Type;
  time_Time : Type;
  (** the fields of a [Project] that [Edit] does not read *)
  ProjectOthers : Type
}.

Section model.
Context `{GoTypes}.

(** Code that acts on the world and may panic. *)
Definition W (A : Type) : Type := world → outcome (A * world).

Definition W_ret {A} (a : A) : W A := λ w, Return (a, w).

Definition W_bind {A B} (k : A → W B) (m : W A) : W B :=
  λ w, match m w with
       | Return (a, w') => k a w'
       | Panic => Panic
       end.

#[global] Instance W_MRet : MRet W := @W_ret.
#[global] Instance W_MBind : MBind W := @W_bind.

Definition panic {A} : W A := λ _, Panic.

(** Code that may panic but does not act on the world. *)
Definition pure {A} (o : outcome A) : W A :=
  λ w, match o with
       | Return a => Return (a, w)
       | Panic => Panic
       end.

(** [defer cleanup()] around [body]: the cleanup runs when the body has
    produced its results, and the results are returned after it. *)
Definition defer {A} (cleanup : W unit) (body : W A) : W A :=
  λ w, match body w with
       | Return (a, w') =>
           match cleanup w' with
           | Return (_, w'') => Return (a, w'')
           | Panic => Panic
           end
       | Panic => Panic
       end.

(** Calling a function value: a nil function panics. *)
Definition call {A B} (f : option (A → W B)) (a : A) : W B :=
  match f with
  | Some g => g a
  | None => panic
  end.

(** [http.Header], with keys in canonical form as the package writes
    them.  [Get] is the first value or the empty text, [Set] replaces. *)
Abbreviation Header := (gmap string (list string)).

Definition Header_Get (h : Header) (k : string) : string :=
  match h !! k with
  | Some (v :: _) => v
  | _ => EmptyString
  end.

Definition Header_Set (h : Header) (k v : string) : Header :=
  <[k := [v]]> h.

Record Request := mkRequest {
  Request_Header : Header;
  Request_raw : RawRequest
}.

Record HTTPResponse := mkHTTPResponse {
  StatusCode : Z;
  Response_Header : Header;
  Response_Body : Body;
  Response_raw : RawResponse
}.

(** [type ErrorResponse struct]; [Response] may be nil. *)
Record ErrorResponse := mkErrorResponse {
  ErrorResponse_Response : option HTTPResponse;
  Code : string;
  Description : string
}.

(** The error values of the package: [errors.New(text)], an
    [*ErrorResponse], or an error handed up from a library. *)
Inductive error :=
  | errors_New (text : string)
  | error_response (r : ErrorResponse)
  | library_error (e : lib_error).

(** What is passed where an [io.Reader] is expected: a [*bytes.Reader]
    (which may be a nil pointer inside a non-nil interface), another
    reader, or the nil interface. *)
Inductive io_Reader :=
  | bytes_Reader (r : option string)
  | other_Reader (r : Reader)
  | nil_Reader.

(** [type Rate struct { Limit, Remaining, Reset int }] *)
Record Rate := mkRate {
  Limit : Z;
  Remaining : Z;
  Reset : Z
}.

(** [type Response struct { *http.Response; Rate Rate; Data any }] *)
Record Response := mkResponse {
  Response_http : HTTPResponse;
  Response_Rate : Rate;
  Data : option any
}.

(** [type RequestOption func(req *http.Request)]: the request after the
    call; a nil option is [None]. *)
Definition RequestOption : Type := option (Request → W Request).

(** [type JSONMarshaler = func(v interface{}) ([]byte, error)] *)
Definition JSONMarshaler : Type := any → W (result error string).

(** [type JSONUnmarshaler = func(data []byte, v interface{}) error], at the
    two kinds of target the package gives it: an [*ErrorResponse], whose
    fields after the call are returned, and a caller's value, which lives
    in the world. *)
Record JSONUnmarshaler := mkJSONUnmarshaler {
  unmarshal_ErrorResponse :
    string * ErrorResponse → W (ErrorResponse * option error);
  unmarshal_any : string * option any → W (option error)
}.

(** [type Client struct]; the service fields all point back to the client
    and are not kept apart. *)
Record Client := mkClient {
  hc : option HTTPClient;
  BaseURL : option URL;
  UserAgent : string;
  AuthToken : string;
  Client_JSONMarshaler : option JSONMarshaler;
  Client_JSONUnmarshaler : option JSONUnmarshaler
}.

(** An expression that may panic: a dereference of a pointer that may be
    nil. *)
Definition deref {A} (p : option A) : outcome A :=
  match p with
  | Some a => Return a
  | None => Panic
  end.

Definition outcome_bind {A B} (k : A → outcome B) (o : outcome A) : outcome B :=
  match o with
  | Return a => k a
  | Panic => Panic
  end.

#[global] Instance outcome_MRet : MRet outcome := @Return.
#[global] Instance outcome_MBind : MBind outcome := @outcome_bind.

(** ** The records of [project.go] *)

Record ProjectDonationURL := mkProjectDonationURL {
  DonationURL_ID : string;
  Platform : string;
  DonationURL_URL : string
}.

Record ProjectLicense := mkProjectLicense {
  License_ID : string;
  License_Name : string;
  License_URL : option string
}.

(** [type Project struct]: the fields that [Edit] reads, under their
    names, and the others together. *)
Record Project := mkProject {
  Slug : string;
  Title : string;
  Project_Description : string;
  Project_Categories : list string;
  Project_ClientSide : string;
  Project_ServerSide : string;
  Project_Body : string;
  RequestedStatus : option string;
  AdditionalCategories : list string;
  IssuesURL : option string;
  SourceURL : option string;
  WikiURL : option string;
  DiscordURL : option string;
  DonationUrls : list (option ProjectDonationURL);
  License : option ProjectLicense;
  Project_others : ProjectOthers
}.

(** [type editableProject struct] *)
Record editableProject := mkEditableProject {
  editable_Slug : string;
  editable_Title : string;
  editable_Description : string;
  editable_Categories : list string;
  editable_ClientSide : string;
  editable_ServerSide : string;
  editable_Body : string;
  editable_RequestedStatus : string;
  editable_AdditionalCategories : list string;
  editable_IssuesURL : string;
  editable_SourceURL : string;
  editable_WikiURL : string;
  editable_DiscordURL : string;
  editable_DonationUrls : list (option ProjectDonationURL);
  editable_LicenseID : string;
  editable_LicenseURL : string
}.

(** [type EditProjectIconParams struct { Ext string; File io.Reader }] *)
Record EditProjectIconParams := mkEditProjectIconParams {
  Icon_Ext : string;
  Icon_File : io_Reader
}.

(** [type AddGalleryImageParams struct] *)
Record AddGalleryImageParams := mkAddGalleryImageParams {
  Gallery_Ext : string;
  Featured : bool;
  Gallery_Title : string;
  Gallery_Description : string;
  Ordering : Z;
  Gallery_File : io_Reader
}.

(** [type ScheduleProjectParams struct] *)
Record ScheduleProjectParams := mkScheduleProjectParams {
  Schedule_Time : time_Time;
  Schedule_RequestedStatus : string
}.

End model.

(** The library functions the package calls.  A receiver that may be a
    nil pointer is passed as an option, and the function says what happens
    then. *)
Class GoLib `{GoTypes} := {
  (** [createClient()]: the [http.Client] with the package's transport *)
  createClient : HTTPClient;
  (** [neturl.ParseRequestURI] and [neturl.Parse]: the URL, nil on error *)
  url_ParseRequestURI : string → option URL;
  url_Parse : string → option URL;
  (** [u.Parse(ref)] and [u.String()] *)
  URL_Parse : option URL → string → outcome (result error URL);
  URL_String : URL → string;
  (** [http.NewRequest(method, url, body)] *)
  http_NewRequest : string → string → io_Reader → outcome (result error Request);
  (** [req.WithContext(ctx)] on a request that may be nil *)
  Request_WithContext : option Request → Ctx → outcome Request;
  (** [hc.Do(req)] *)
  HTTPClient_Do : option HTTPClient → Request → W (result error HTTPResponse);
  (** whether [ctx.Done()] is ready, and then [ctx.Err()] *)
  ctx_Done : Ctx → W (option error);
  (** [body.Close()] *)
  Body_Close : Body → W unit;
  (** [io.ReadAll(body)]; the slice it returns is never nil *)
  io_ReadAll : Body → W (result error string);
  (** [strconv.Atoi]: the value is returned also beside an error *)
  strconv_Atoi : string → Z * option error;
  (** [neturl.Values{}], [q.Add(key, value)], [q.Encode()] *)
  Values_empty : Values;
  Values_Add : Values → string → string → Values;
  Values_Encode : Values → string;
  (** [fmt.Sprint] of an [int] *)
  fmt_Sprint_int : Z → string;
  (** [query.Values] of go-querystring, on the two parameter structs *)
  query_Values_icon : EditProjectIconParams → outcome (result error Values);
  query_Values_gallery : AddGalleryImageParams → outcome (result error Values);
  (** [new(Project)], a slice of projects passed by value, and the
      pointers to the request structs, as values of type [any] *)
  new_Project : W any;
  any_Projects : list Project → any;
  any_editableProject : editableProject → any;
  any_ScheduleProjectParams : ScheduleProjectParams → any
}.

Section client.
Context `{GoLib}.

Definition APIBaseURL : string := "https://api.modrinth.com/v2".

Definition headerRateLimit : string := "X-Ratelimit-Limit".
Definition headerRateRemaining : string := "X-Ratelimit-Remaining".
Definition headerRateReset : string := "X-Ratelimit-Reset".

Definition appVersion : string := "dev".
Definition defaultUserAgent : string :=
  "github.com/ookkoouu/labrinth-client/" +:+ appVersion.

Definition supportedImageExt : list string :=
  ["png"; "jpg"; "jpeg"; "bmp"; "gif"; "webp"; "svg"; "svgz"; "rgb"].

(** [slices.Contains] on strings. *)
Definition slices_Contains (s : list string) (v : string) : bool :=
  bool_decide (v ∈ s).

(** [func (c *Client) init]: the defaults for what is not set. *)
Definition init (c : Client) : Client :=
  let c :=
    match hc c with
    | None => mkClient (Some createClient) (BaseURL c) (UserAgent c)
                (AuthToken c) (Client_JSONMarshaler c) (Client_JSONUnmarshaler c)
    | Some _ => c
    end in
  let c :=
    match BaseURL c with
    | None => mkClient (hc c) (url_ParseRequestURI APIBaseURL) (UserAgent c)
                (AuthToken c) (Client_JSONMarshaler c) (Client_JSONUnmarshaler c)
    | Some _ => c
    end in
  if decide (UserAgent c = EmptyString)
  then mkClient (hc c) (BaseURL c) defaultUserAgent (AuthToken c)
         (Client_JSONMarshaler c) (Client_JSONUnmarshaler c)
  else c.

(** [func NewClient]: a zero client, initialized. *)
Definition NewClient : Client :=
  init (mkClient None None EmptyString EmptyString None None).

(** The header defaults and the options, common to the three request
    constructors once the request is made. *)
Fixpoint apply_options (opts : list RequestOption) (req : Request)
    : W Request :=
  match opts with
  | [] => mret req
  | opt :: opts' => req' ← call opt req; apply_options opts' req'
  end.

Definition set_header (k v : string) (req : Request) : Request :=
  mkRequest (Header_Set (Request_Header req) k v) (Request_raw req).

Definition set_header_unless_empty (k v : string) (req : Request) : Request :=
  if decide (v = EmptyString) then req else set_header k v req.

(** [func (c *Client) NewRequest(method, path string, body any,
    opts ...RequestOption)], which returns a request and an error. *)
Definition NewRequest (c : Client) (method path : string) (body : option any)
    (opts : list RequestOption) : W (option Request * option error) :=
  u ← pure (URL_Parse (BaseURL c) path);
  match u with
  | Err err => mret (None, Some err)
  | Ok u =>
      rd ← match body with
           | Some v =>
               d ← call (Client_JSONMarshaler c) v;
               match d with
               | Err err => mret (Err err)
               | Ok data => mret (Ok (Some data))
               end
           | None => mret (Ok None)
           end;
      match rd with
      | Err err => mret (None, Some err)
      | Ok rd =>
          r ← pure (http_NewRequest method (URL_String u) (bytes_Reader rd));
          match r with
          | Err err => mret (None, Some err)
          | Ok req =>
              let req :=
                match body with
                | Some _ => set_header "Content-Type" "application/json" req
                | None => req
                end in
              let req := set_header_unless_empty "User-Agent" (UserAgent c) req in
              let req := set_header_unless_empty "Authorization" (AuthToken c) req in
              req ← apply_options opts req;
              mret (Some req, None)
          end
      end
  end.

(** [func (c *Client) NewUploadRequest(method, path, contentType string,
    body io.Reader, opts ...RequestOption)] *)
Definition NewUploadRequest (c : Client) (method path contentType : string)
    (body : io_Reader) (opts : list RequestOption)
    : W (option Request * option error) :=
  u ← pure (URL_Parse (BaseURL c) path);
  match u with
  | Err err => mret (None, Some err)
  | Ok u =>
      r ← pure (http_NewRequest method (URL_String u) body);
      match r with
      | Err err => mret (None, Some err)
      | Ok req =>
          let req := set_header "Content-Type" contentType req in
          let req := set_header_unless_empty "User-Agent" (UserAgent c) req in
          let req := set_header_unless_empty "Authorization" (AuthToken c) req in
          req ← apply_options opts req;
          mret (Some req, None)
      end
  end.

(** [func (c *Client) NewFormRequest(method, path string, body io.Reader,
    opts ...RequestOption)] *)
Definition NewFormRequest (c : Client) (method path : string)
    (body : io_Reader) (opts : list RequestOption)
    : W (option Request * option error) :=
  u ← pure (URL_Parse (BaseURL c) path);
  match u with
  | Err err => mret (None, Some err)
  | Ok u =>
      r ← pure (http_NewRequest method (URL_String u) body);
      match r with
      | Err err => mret (None, Some err)
      | Ok req =>
          let req := set_header "Content-Type" "multipart/form-data" req in
          let req := set_header_unless_empty "User-Agent" (UserAgent c) req in
          let req := set_header_unless_empty "Authorization" (AuthToken c) req in
          req ← apply_options opts req;
          mret (Some req, None)
      end
  end.

(** [func (c *Client) checkResponse(r *http.Response) error] *)
Definition checkResponse (c : Client) (r : HTTPResponse) : W (option error) :=
  if decide (200 ≤ StatusCode r ∧ StatusCode r ≤ 299)%Z then mret None
  else
    let errResp := mkErrorResponse (Some r) EmptyString EmptyString in
    if decide (500 ≤ StatusCode r)%Z
    then mret (Some (error_response
                       (mkErrorResponse (Some r) EmptyString
                          "internal server error")))
    else
      d ← io_ReadAll (Response_Body r);
      match d with
      | Ok data =>
          u ← call (unmarshal_ErrorResponse <$> Client_JSONUnmarshaler c)
                (data, errResp);
          match u with
          | (_, Some _) =>
              mret (Some (error_response
                            (mkErrorResponse (Some r) EmptyString EmptyString)))
          | (errResp', None) => mret (Some (error_response errResp'))
          end
      | Err _ => mret (Some (error_response errResp))
      end.

(** [func parseRate(r *http.Response) Rate] *)
Definition parseRate (r : HTTPResponse) : Rate :=
  let rate := mkRate 0 0 0 in
  let rate :=
    let limit := Header_Get (Response_Header r) headerRateLimit in
    if decide (limit ≠ EmptyString)
    then mkRate (strconv_Atoi limit).1 (Remaining rate) (Reset rate)
    else rate in
  let rate :=
    let remaining := Header_Get (Response_Header r) headerRateRemaining in
    if decide (remaining ≠ EmptyString)
    then mkRate (Limit rate) (strconv_Atoi remaining).1 (Reset rate)
    else rate in
  let rate :=
    let reset := Header_Get (Response_Header r) headerRateReset in
    if decide (reset ≠ EmptyString)
    then mkRate (Limit rate) (Remaining rate) (strconv_Atoi reset).1
    else rate in
  rate.

(** [func (c *Client) Do(ctx context.Context, req *http.Request,
    respData any)], which returns a response and an error. *)
Definition Do (c : Client) (ctx : Ctx) (req : option Request)
    (respData : option any) : W (option Response * option error) :=
  req ← pure (Request_WithContext req ctx);
  r ← HTTPClient_Do (hc c) req;
  match r with
  | Err err =>
      done ← ctx_Done ctx;
      match done with
      | Some ctx_err => mret (None, Some ctx_err)
      | None => mret (None, Some err)
      end
  | Ok res =>
      defer (Body_Close (Response_Body res))
        (let response := mkResponse res (parseRate res) respData in
         err ← checkResponse c res;
         match err with
         | Some err => mret (Some response, Some err)
         | None =>
             b ← io_ReadAll (Response_Body res);
             match b with
             | Err err => mret (Some response, Some err)
             | Ok bodyData =>
                 err ← call (unmarshal_any <$> Client_JSONUnmarshaler c)
                         (bodyData, Data response);
                 match err with
                 | Some err => mret (Some response, Some err)
                 | None => mret (Some response, None)
                 end
             end
         end)
  end.

(** The setters: [SetHTTPClient], [SetToken], [SetBaseURL], [SetUserAgent],
    [SetJSONMarshaler], [SetJSONUnmarshaler]. *)
Definition SetHTTPClient (c : Client) (h : option HTTPClient) : Client :=
  mkClient h (BaseURL c) (UserAgent c) (AuthToken c)
    (Client_JSONMarshaler c) (Client_JSONUnmarshaler c).

Definition SetToken (c : Client) (token : string) : Client :=
  mkClient (hc c) (BaseURL c) (UserAgent c) token
    (Client_JSONMarshaler c) (Client_JSONUnmarshaler c).

Definition SetBaseURL (c : Client) (url : string) : Client :=
  mkClient (hc c) (url_Parse url) (UserAgent c) (AuthToken c)
    (Client_JSONMarshaler c) (Client_JSONUnmarshaler c).

Definition SetUserAgent (c : Client) (ua : string) : Client :=
  mkClient (hc c) (BaseURL c) ua (AuthToken c)
    (Client_JSONMarshaler c) (Client_JSONUnmarshaler c).

Definition SetJSONMarshaler (c : Client) (m : option JSONMarshaler) : Client :=
  mkClient (hc c) (BaseURL c) (UserAgent c) (AuthToken c)
    m (Client_JSONUnmarshaler c).

Definition SetJSONUnmarshaler (c : Client) (u : option JSONUnmarshaler)
    : Client :=
  mkClient (hc c) (BaseURL c) (UserAgent c) (AuthToken c)
    (Client_JSONMarshaler c) u.

(** [func queryArray(v []string) string] *)
Definition queryArray (v : list string) : string :=
  let s := imap (λ i item, dquote +:+ item +:+ dquote) v in
  Sprintf "[%s]" [strings_Join s ","].

End client.

(** ** The project service: [project.go] *)
Section projects.
Context `{GoLib}.

Definition requestableProjectStatus : list string :=
  ["approved"; "archived"; "draft"; "unlisted"; "private"].

(** [func (s ProjectStatus) IsRequestable() bool] *)
Definition IsRequestable (s : string) : bool :=
  slices_Contains requestableProjectStatus s.

(** The common ending of the methods that decode into a target and return
    it: [res, err := s.client.Do(ctx, req, target)], then the target with
    the response, or nil with the response and the error. *)
Definition Do_into (c : Client) (ctx : Ctx) (req : option Request)
    (target : any) : W (option any * option Response * option error) :=
  d ← Do c ctx req (Some target);
  match d with
  | (res, Some err) => mret (None, res, Some err)
  | (res, None) => mret (Some target, res, None)
  end.

(** [func (s *ProjectsService) Get(ctx, idSlug)] *)
Definition Get (c : Client) (ctx : Ctx) (idSlug : string)
    : W (option any * option Response * option error) :=
  r ← NewRequest c "GET" ("project/" +:+ idSlug) None [];
  match r with
  | (_, Some err) => mret (None, None, Some err)
  | (req, None) => proj ← new_Project; Do_into c ctx req proj
  end.



(** The composite literal [&editableProject{...}] of [Edit]: it reads
    through [proj], [proj.License] and the six pointer fields. *)
Definition editable_of (proj : option Project) : outcome editableProject :=
  proj ← deref proj;
  license ← deref (License proj);
  requested ← deref (RequestedStatus proj);
  issues ← deref (IssuesURL proj);
  source ← deref (SourceURL proj);
  wiki ← deref (WikiURL proj);
  discord ← deref (DiscordURL proj);
  license_url ← deref (License_URL license);
  mret (mkEditableProject (Slug proj) (Title proj) (Project_Description proj)
          (Project_Categories proj) (Project_ClientSide proj)
          (Project_ServerSide proj) (Project_Body proj) requested
          (AdditionalCategories proj) issues source wiki discord
          (DonationUrls proj) (License_ID license) license_url).

(** [func (s *ProjectsService) Edit(ctx, idSlug, proj)] *)
Definition Edit (c : Client) (ctx : Ctx) (idSlug : string)
    (proj : option Project)
    : W (option any * option Response * option error) :=
  projReq ← pure (editable_of proj);
  r ← NewRequest c "PATCH" ("project/" +:+ idSlug)
        (Some (any_editableProject projReq)) [];
  match r with
  | (_, Some err) => mret (None, None, Some err)
  | (req, None) => projRes ← new_Project; Do_into c ctx req projRes
  end.

(** [func (s *ProjectsService) Delete(ctx, idSlug)] *)
Definition Delete (c : Client) (ctx : Ctx) (idSlug : string)
    : W (option Response * option error) :=
  r ← NewRequest c "DELETE" ("project/" +:+ idSlug) None [];
  match r with
  | (_, Some err) => mret (None, Some err)
  | (req, None) => Do c ctx req None
  end.

(** [func (s *ProjectsService) ChangeIcon(ctx, idSlug, params)].  The
    parameters are the caller's struct behind a pointer; the first
    component of the result is that struct when the method returns. *)
Definition ChangeIcon (c : Client) (ctx : Ctx) (idSlug : string)
    (params : option EditProjectIconParams)
    : W (EditProjectIconParams * (option Response * option error)) :=
  params ← pure (deref params);
  if negb (slices_Contains supportedImageExt (Icon_Ext params))
  then mret (params, (None, Some (errors_New "unsupported iamge file")))
  else
    let params :=
      if decide (Icon_Ext params = "jpg")
      then mkEditProjectIconParams "jpeg" (Icon_File params)
      else params in
    q ← pure (query_Values_icon params);
    match q with
    | Err err => mret (params, (None, Some err))
    | Ok q =>
        r ← NewUploadRequest c "PATCH"
              (Sprintf "project/%s/icon?%s" [idSlug; Values_Encode q])
              ("image/" +:+ Icon_Ext params) (Icon_File params) [];
        match r with
        | (_, Some err) => mret (params, (None, Some err))
        | (req, None) => d ← Do c ctx req None; mret (params, d)
        end
    end.

(** [func (s *ProjectsService) AddGalleryImage(ctx, idSlug, params)] *)
Definition AddGalleryImage (c : Client) (ctx : Ctx) (idSlug : string)
    (params : option AddGalleryImageParams)
    : W (AddGalleryImageParams * (option Response * option error)) :=
  params ← pure (deref params);
  if negb (slices_Contains supportedImageExt (Gallery_Ext params))
  then mret (params, (None, Some (errors_New "unsupported iamge file")))
  else
    let params :=
      if decide (Gallery_Ext params = "jpg")
      then mkAddGalleryImageParams "jpeg" (Featured params)
             (Gallery_Title params) (Gallery_Description params)
             (Ordering params) (Gallery_File params)
      else params in
    q ← pure (query_Values_gallery params);
    match q with
    | Err err => mret (params, (None, Some err))
    | Ok q =>
        r ← NewUploadRequest c "POST"
              (Sprintf "project/%s/gallery?%s" [idSlug; Values_Encode q])
              ("image/" +:+ Gallery_Ext params) (Gallery_File params) [];
        match r with
        | (_, Some err) => mret (params, (None, Some err))
        | (req, None) => d ← Do c ctx req None; mret (params, d)
        end
    end.

(** [func (s *ProjectsService) Schedule(ctx, idSlug, params)] *)
Definition Schedule (c : Client) (ctx : Ctx) (idSlug : string)
    (params : option ScheduleProjectParams)
    : W (option Response * option error) :=
  params ← pure (deref params);
  if negb (IsRequestable (Schedule_RequestedStatus params))
  then mret (None, Some (errors_New "project_status is not requestable"))
  else
    r ← NewRequest c "POST" (Sprintf "project/%s/schedule" [idSlug])
          (Some (any_ScheduleProjectParams params)) [];
    match r with
    | (_, Some err) => mret (None, Some err)
    | (req, None) => Do c ctx req None
    end.

End projects.
End labrinth.

(** ** A small library for concrete instances

    The world is the log of the library calls that act on it; every
    request is answered with the given status code and body. *)
Definition sample_types : labrinth.GoTypes :=
  {| labrinth.world := list string;
     labrinth.any := string;
     labrinth.lib_error := string;
     labrinth.URL := string;
     labrinth.HTTPClient := unit;
     labrinth.Ctx := unit;
     labrinth.Reader := string;
     labrinth.RawRequest := string * string;
     labrinth.RawResponse := unit;
     labrinth.Body := string;
     labrinth.Values := list (string * string);
     labrinth.time_Time := Z;
     labrinth.ProjectOthers := unit |}.

Section sample_library.
#[local] Existing Instance sample_types.

Definition sample_lib (status : Z) (body : string) : labrinth.GoLib :=
  {| labrinth.createClient := tt;
     labrinth.url_ParseRequestURI := λ s, Some s;
     labrinth.url_Parse := λ s, Some s;
     labrinth.URL_Parse := λ base ref,
       match base with
       | Some b => labrinth.Return (labrinth.Ok (b +:+ "/" +:+ ref))
       | None => labrinth.Panic
       end;
     labrinth.URL_String := λ u, u;
     labrinth.http_NewRequest := λ method url _,
       labrinth.Return (labrinth.Ok (labrinth.mkRequest ∅ (method, url)));
     labrinth.Request_WithContext := λ req _, labrinth.deref req;
     labrinth.HTTPClient_Do := λ _ req w,
       labrinth.Return
         (labrinth.Ok (labrinth.mkHTTPResponse status ∅ body tt),
          w ++ ["Do " +:+ (labrinth.Request_raw req).2]);
     labrinth.ctx_Done := λ _ w, labrinth.Return (None, w);
     labrinth.Body_Close := λ _ w, labrinth.Return (tt, w ++ ["Close"]);
     labrinth.io_ReadAll := λ b w,
       labrinth.Return (labrinth.Ok b, w ++ ["ReadAll"]);
     labrinth.strconv_Atoi := λ _, (0%Z, None);
     labrinth.Values_empty := [];
     labrinth.Values_Add := λ q k v, q ++ [(k, v)];
     labrinth.Values_Encode := λ q,
       strings_Join (map (λ kv, kv.1 +:+ "=" +:+ kv.2) q) "&";
     labrinth.fmt_Sprint_int := λ n, pretty n;
     labrinth.query_Values_icon := λ p,
       labrinth.Return (labrinth.Ok [("ext", labrinth.Icon_Ext p)]);
     labrinth.query_Values_gallery := λ p,
       labrinth.Return (labrinth.Ok [("ext", labrinth.Gallery_Ext p)]);
     labrinth.new_Project := λ w, labrinth.Return ("project", w ++ ["new"]);
     labrinth.any_Projects := λ _, "projects";
     labrinth.any_editableProject := labrinth.editable_Slug;
     labrinth.any_ScheduleProjectParams := labrinth.Schedule_RequestedStatus |}.

(** A client with a token and both JSON functions set: the marshaler gives
    the value back as text, the unmarshaler accepts everything. *)
Definition sample_client (lib : labrinth.GoLib) : labrinth.Client :=
  labrinth.SetJSONUnmarshaler
    (labrinth.SetJSONMarshaler (labrinth.SetToken labrinth.NewClient "secret")
       (Some (λ v : string, labrinth.W_ret (labrinth.Ok v))))
    (Some (labrinth.mkJSONUnmarshaler (λ x, labrinth.W_ret (x.2, None))
             (λ _, labrinth.W_ret None))).

End sample_library.

(** * Properties of the embedding *)

(** ** Running the monad *)

Lemma bind_run {A B} (m : M A) (k : A → M B) σ :
  (m ≫= k) σ = match m σ with Some (a, σ') => k a σ' | None => None end.
Proof. reflexivity. Qed.

Lemma bind_Some {A B} (m : M A) (k : A → M B) σ a σ' :
  m σ = Some (a, σ') → (m ≫= k) σ = k a σ'.
Proof. intros H. by rewrite bind_run, H. Qed.

Lemma store_eta σ : mkStore (comparisons σ) (builders σ) = σ.
Proof. by destruct σ. Qed.

Lemma with_clauses_nil σ f p :
  comparisons σ !! f = Some p → with_clauses σ f p [] = σ.
Proof.
  intros H. unfold with_clauses. rewrite app_nil_r.
  destruct p as [k st]; simpl. rewrite insert_id by done. apply store_eta.
Qed.

Lemma with_clauses_lookup σ f p cs :
  comparisons (with_clauses σ f p cs) !! f
  = Some (mkFacetProp (key p) (state p ++ cs)).
Proof. apply lookup_insert_eq. Qed.

Lemma with_clauses_lookup_ne σ f p cs f' :
  f ≠ f' → comparisons (with_clauses σ f p cs) !! f' = comparisons σ !! f'.
Proof. intros. by apply lookup_insert_ne. Qed.

Lemma with_clauses_twice σ f p cs cs' :
  with_clauses (with_clauses σ f p cs) f
    (mkFacetProp (key p) (state p ++ cs)) cs'
  = with_clauses σ f p (cs ++ cs').
Proof.
  unfold with_clauses; simpl. by rewrite insert_insert_eq, app_assoc.
Qed.

(** ** The operator methods *)

Lemma append_clause_run format f v σ p :
  comparisons σ !! f = Some p →
  append_clause format f v σ
  = Some (tt, with_clauses σ f p [Sprintf format [key p; v]]).
Proof.
  intros H. unfold append_clause. rewrite bind_run. unfold load_prop. by rewrite H.
Qed.

Lemma range_append_clause format f s : ∀ σ p,
  comparisons σ !! f = Some p →
  range s (append_clause format f) σ
  = Some (tt, with_clauses σ f p (map (λ v, Sprintf format [key p; v]) s)).
Proof.
  induction s as [|v s IH]; intros σ p H; simpl.
  - by rewrite with_clauses_nil.
  - rewrite (bind_Some _ _ _ _ _ (append_clause_run format f v σ p H)).
    rewrite (IH _ _ (with_clauses_lookup σ f p _)).
    by rewrite with_clauses_twice.
Qed.

Lemma method_run o f s σ p :
  comparisons σ !! f = Some p →
  method o f s σ = Some (f, with_clauses σ f p (map (clause (key p) o) s)).
Proof.
  intros H.
  assert (∀ format,
    (∀ k v, Sprintf format [k; v] = clause k o v) →
    (range s (append_clause format f);; ret f) σ
    = Some (f, with_clauses σ f p (map (clause (key p) o) s))) as Hfmt.
  { intros format Hf.
    rewrite (bind_Some _ _ _ _ _ (range_append_clause format f s σ p H)).
    unfold ret. do 3 f_equal. apply map_ext. intros v. apply Hf. }
  destruct o; apply Hfmt; intros k v; reflexivity.
Qed.

(** ** Serialization *)

(** An iteratee that only reads the store makes [lo.Map] a reader too. *)
Lemma lo_Map_from_reader {A B C} (h : A → option C) (r : C → B)
    (iteratee : A → nat → M B) σ (l : list A) :
  (∀ x i, iteratee x i σ = (λ c, (r c, σ)) <$> h x) →
  ∀ i, lo_Map_from i l iteratee σ = (λ cs, (map r cs, σ)) <$> mapM h l.
Proof.
  intros Hit. induction l as [|x l IH]; intros i; simpl; [done|].
  rewrite bind_run, Hit. destruct (h x) as [c|]; simpl; [|done].
  rewrite bind_run, IH. by destruct (mapM h l).
Qed.

Lemma facetProp_String_reader f σ :
  facetProp_String f σ = (λ cs, (render_comparison cs, σ)) <$> clauses_of σ f.
Proof.
  unfold facetProp_String, clauses_of. rewrite bind_run. unfold load_prop.
  by destruct (comparisons σ !! f).
Qed.

Lemma propList_String_reader g σ :
  propList_String g σ = (λ c, (render_members c, σ)) <$> group_contents σ g.
Proof.
  unfold propList_String, lo_Map, group_contents. rewrite bind_run.
  rewrite (lo_Map_from_reader (clauses_of σ) render_comparison)
    by (intros; apply facetProp_String_reader).
  by destruct (mapM (clauses_of σ) g).
Qed.

Lemma facets_String_group_reader e i σ :
  facets_String_group e i σ
  = (λ c, (render_group c, σ)) <$> group_contents σ e.
Proof.
  unfold facets_String_group. rewrite bind_run, propList_String_reader.
  by destruct (group_contents σ e).
Qed.

Lemma facets_String_reader b σ :
  facets_String b σ = (λ c, (render c, σ)) <$> contents σ b.
Proof.
  unfold facets_String, contents, lo_Map. rewrite bind_run. unfold load_facets.
  destruct (builders σ !! b) as [g|]; simpl; [|done].
  rewrite bind_run.
  rewrite (lo_Map_from_reader (group_contents σ) render_group).
  - by destruct (mapM (group_contents σ) (props g)).
  - intros e i. apply facets_String_group_reader.
Qed.

(** ** Allocation and the builder's methods *)

Lemma fresh_prop_unused σ : comparisons σ !! fresh (dom (comparisons σ)) = None.
Proof. apply not_elem_of_dom, is_fresh. Qed.

Lemma newFacetProp_run k σ :
  newFacetProp k σ
  = Some (fresh (dom (comparisons σ)),
          mkStore (<[fresh (dom (comparisons σ)) := mkFacetProp k []]>
                     (comparisons σ)) (builders σ)).
Proof. reflexivity. Qed.

Lemma And_run b ps σ g :
  builders σ !! b = Some g →
  And b ps σ
  = Some (b, mkStore (comparisons σ)
                (<[b := mkFacets (facets_state g) (props g ++ [ps])]>
                   (builders σ))).
Proof.
  intros H. unfold And. rewrite bind_run. unfold load_facets. by rewrite H.
Qed.

Lemma New_run ps σ :
  New ps σ
  = Some (fresh (dom (builders σ)),
          mkStore (comparisons σ)
            (<[fresh (dom (builders σ)) :=
                 mkFacets [] (match ps with [] => [] | _ => [ps] end)]>
               (builders σ))).
Proof.
  unfold New. rewrite bind_run. unfold new_facets.
  rewrite bind_run. destruct ps as [|p ps]; simpl; [done|].
  rewrite bind_run.
  erewrite And_run by (simpl; apply lookup_insert_eq).
  simpl. by rewrite insert_insert_eq.
Qed.

Lemma contents_And σ b g ps c gc :
  builders σ !! b = Some g →
  contents σ b = Some c →
  group_contents σ ps = Some gc →
  contents (mkStore (comparisons σ)
              (<[b := mkFacets (facets_state g) (props g ++ [ps])]>
                 (builders σ))) b
  = Some (c ++ [gc]).
Proof.
  intros Hb Hc Hg. unfold contents in *; simpl.
  rewrite lookup_insert_eq; simpl. rewrite Hb in Hc; simpl in Hc.
  apply mapM_Some. apply mapM_Some in Hc.
  apply Forall2_app; [exact Hc|]. by constructor.
Qed.

Lemma chain_run calls : ∀ f σ p,
  comparisons σ !! f = Some p →
  chain f calls σ
  = Some (f, with_clauses σ f p
               (mjoin (map (λ c, map (clause (key p) c.1) c.2) calls))).
Proof.
  induction calls as [|[o s] calls IH]; intros f σ p H; simpl.
  - unfold ret. by rewrite with_clauses_nil.
  - rewrite (bind_Some _ _ _ _ _ (method_run o f s σ p H)).
    rewrite (IH _ _ _ (with_clauses_lookup σ f p _)).
    simpl. by rewrite with_clauses_twice.
Qed.

Lemma fresh_after_insert (m : gmap loc facetProp) f x :
  fresh (dom (<[f := x]> m)) ≠ f.
Proof.
  intros E. pose proof (is_fresh (dom (<[f := x]> m))) as H.
  rewrite E in H. apply H, elem_of_dom. rewrite lookup_insert_eq. eauto.
Qed.

(** Symbolic execution of straight-line client code: one rewriting rule per
    call of the package, the receiver being found in the store. *)
Ltac live := simpl; first [ apply lookup_insert_eq | eassumption ].

Ltac exec :=
  repeat first
    [ rewrite bind_run
    | rewrite newFacetProp_run
    | rewrite New_run
    | erewrite (method_run OpEqual) by live
    | erewrite (method_run OpNotEqual) by live
    | erewrite (method_run OpLess) by live
    | erewrite (method_run OpLessOrEqual) by live
    | erewrite (method_run OpGreater) by live
    | erewrite (method_run OpGreaterOrEqual) by live
    | erewrite And_run by live
    | rewrite facets_String_reader
    | rewrite facets_String_group_reader
    | rewrite facetProp_String_reader ].

(** Lookups in a store built by successive allocations and updates. *)
Ltac lookups :=
  repeat first
    [ rewrite lookup_insert_eq
    | rewrite lookup_insert_ne by (apply fresh_after_insert || assumption) ];
  simpl.

Lemma two_groups_run σ : fst <$> two_groups σ = Some two_groups_text.
Proof.
  unfold two_groups. exec.
  unfold contents, group_contents, clauses_of; simpl.
  rewrite !lookup_insert_eq; simpl. by lookups.
Qed.

(** ** The output grammar *)

Lemma strings_Join_head a r xs sep :
  ∃ r', strings_Join (String a r :: xs) sep = String a r'.
Proof. destruct xs; simpl; eauto. Qed.

Lemma is_clause_head s : is_clause s → ∃ r, s = String "034"%char r.
Proof. intros (k & o & v & ->). simpl. eauto. Qed.

(** A group of the grammar opens with a bracket that is followed by the
    closing bracket or by the quote of its first clause. *)
Lemma is_group_head s :
  is_group s →
  ∃ a r, s = String "["%char (String a r) ∧ (a = "]"%char ∨ a = "034"%char).
Proof.
  intros [->|(c & cs & Hc & ->)]; [simpl; eauto|].
  apply Forall_cons_1 in Hc as [Hc _].
  apply is_clause_head in Hc as [r ->].
  destruct (strings_Join_head "034"%char r cs ",") as [r' ->].
  simpl. eauto.
Qed.

Lemma is_outer_head s :
  is_outer s →
  s = "[]"
  ∨ ∃ a r, s = String "["%char (String "["%char (String a r))
           ∧ (a = "]"%char ∨ a = "034"%char).
Proof.
  intros [->|(g & gs & Hg & ->)]; [by left|right].
  apply Forall_cons_1 in Hg as [Hg _].
  apply is_group_head in Hg as (a & r & -> & Ha).
  destruct (strings_Join_head "["%char (String a r) gs ",") as [r' Hr].
  destruct gs; simpl in *; eauto.
Qed.

Lemma newFacetProp_independent k : constructs_independent (newFacetProp k) k.
Proof.
  intros σ. eexists _, _. split; [apply newFacetProp_run|].
  split; [apply fresh_prop_unused|]. do 2 (split; [done|]).
  intros f' p' Hf'.
  assert (f' ≠ fresh (dom (comparisons σ))) as Hne.
  { intros ->. rewrite fresh_prop_unused in Hf'. done. }
  split; [done|]. intros o s. split.
  - eexists. split; [apply method_run; simpl; apply lookup_insert_eq|].
    rewrite with_clauses_lookup_ne by done. simpl.
    by rewrite lookup_insert_ne.
  - eexists. split.
    + apply method_run with (p := p'). simpl. by rewrite lookup_insert_ne.
    + rewrite with_clauses_lookup_ne by done. simpl. apply lookup_insert_eq.
Qed.

(** ** Programs and their images *)

Lemma mapM_Forall2_eq {A B C} (F : A → option C) (G : B → option C) l1 l2 :
  Forall2 (λ u v, F u = G v) l1 l2 → mapM F l1 = mapM G l2.
Proof.
  induction 1 as [|u v l1 l2 Huv _ IH]; simpl; [done|].
  by rewrite Huv, IH.
Qed.

Lemma represents_text σ b env a :
  represents σ b env a → fst <$> facets_String b σ = image_text a.
Proof.
  intros (_ & Henv & g & Hb & Hg).
  rewrite facets_String_reader. unfold contents, image_text.
  rewrite Hb; simpl.
  rewrite (mapM_Forall2_eq (group_contents σ)
             (mapM (λ x, state <$> instances a !! x)) (props g) (groups a)).
  - by destruct (mapM _ (groups a)).
  - eapply Forall2_impl; [exact Hg|]. intros e xs He.
    apply mapM_Forall2_eq. eapply Forall2_impl; [exact He|].
    intros f x Hx. unfold clauses_of.
    destruct (Forall2_lookup_l _ _ _ _ _ Henv Hx) as (p & -> & ->). done.
Qed.

Lemma represents_new σ b env a k :
  represents σ b env a →
  represents
    (mkStore (<[fresh (dom (comparisons σ)) := mkFacetProp k []]>
                (comparisons σ)) (builders σ))
    b (env ++ [fresh (dom (comparisons σ))])
    (mkImage (instances a ++ [mkFacetProp k []]) (groups a)).
Proof.
  intros (Hnd & Henv & g & Hb & Hg).
  assert (∀ f, f ∈ env → f ≠ fresh (dom (comparisons σ))) as Hold.
  { intros f [i Hi]%list_elem_of_lookup ->.
    destruct (Forall2_lookup_l _ _ _ _ _ Henv Hi) as (p & _ & Hp).
    rewrite fresh_prop_unused in Hp. done. }
  split; [|split]; simpl.
  - apply NoDup_app. split; [done|]. split; [|apply NoDup_singleton].
    intros f Hf ->%list_elem_of_singleton. by apply (Hold _ Hf).
  - apply Forall2_app.
    + apply Forall2_same_length_lookup. split; [by eapply Forall2_length|].
      intros i f p Hf Hp. rewrite lookup_insert_ne.
      * exact (Forall2_lookup_lr _ _ _ _ _ _ Henv Hf Hp).
      * apply not_eq_sym, Hold. by eapply list_elem_of_lookup_2.
    + constructor; [apply lookup_insert_eq|constructor].
  - exists g. split; [done|].
    eapply Forall2_impl; [exact Hg|]. intros e xs He.
    eapply Forall2_impl; [exact He|]. intros f x Hx.
    by apply lookup_app_l_Some.
Qed.

Lemma represents_compare σ b env a x f p cs :
  represents σ b env a →
  env !! x = Some f →
  instances a !! x = Some p →
  represents (with_clauses σ f p cs) b env
    (mkImage (<[x := mkFacetProp (key p) (state p ++ cs)]> (instances a))
             (groups a)).
Proof.
  intros (Hnd & Henv & g & Hb & Hg) Hx Hp.
  split; [done|]. split; simpl; [|by exists g].
  apply Forall2_same_length_lookup. split.
  - rewrite length_insert. by eapply Forall2_length.
  - intros i f' p' Hf' Hp'. destruct (decide (i = x)) as [->|Hne].
    + rewrite list_lookup_insert_eq in Hp' by (by eapply lookup_lt_Some).
      assert (f' = f) as -> by congruence.
      injection Hp' as <-. apply lookup_insert_eq.
    + rewrite list_lookup_insert_ne in Hp' by done.
      rewrite lookup_insert_ne.
      * exact (Forall2_lookup_lr _ _ _ _ _ _ Henv Hf' Hp').
      * intros ->. apply Hne. by eapply NoDup_lookup.
Qed.

Lemma represents_add σ b env a g ps xs :
  represents σ b env a →
  builders σ !! b = Some g →
  Forall2 (λ x f, env !! x = Some f) xs ps →
  represents
    (mkStore (comparisons σ)
       (<[b := mkFacets (facets_state g) (props g ++ [ps])]> (builders σ)))
    b env (mkImage (instances a) (groups a ++ [xs])).
Proof.
  intros (Hnd & Henv & g' & Hb' & Hg) Hb Hps.
  assert (g' = g) as -> by congruence.
  split; [done|]. split; [done|]. simpl.
  eexists. split; [apply lookup_insert_eq|]. simpl.
  apply Forall2_app; [done|]. constructor; [|constructor].
  by apply Forall2_flip.
Qed.

(** A call acts on the store as it acts on the image, and fails on the one
    exactly when it fails on the other. *)
Lemma run_call_image σ b env a c :
  represents σ b env a →
  match run_call b env c σ, image_call a c with
  | Some (env', σ'), Some a' => represents σ' b env' a'
  | None, None => True
  | _, _ => False
  end.
Proof.
  intros Hrep. pose proof Hrep as (Hnd & Henv & g & Hb & Hg).
  destruct c as [k|x o s|xs]; simpl.
  - by apply represents_new.
  - rewrite bind_run. unfold lift_option.
    destruct (env !! x) as [f|] eqn:Hx; simpl.
    + destruct (Forall2_lookup_l _ _ _ _ _ Henv Hx) as (p & Hp & Hf).
      rewrite Hp; simpl.
      rewrite bind_run, (method_run o f s σ p Hf).
      by apply represents_compare.
    + apply lookup_ge_None in Hx.
      rewrite (Forall2_length _ _ _ Henv) in Hx.
      apply lookup_ge_None in Hx. by rewrite Hx.
  - rewrite bind_run. unfold lift_option.
    destruct (mapM (λ x, env !! x) xs) as [ps|] eqn:Hps; simpl.
    + rewrite bind_run, (And_run b ps σ g Hb).
      apply mapM_Some in Hps.
      rewrite decide_True.
      * by eapply represents_add.
      * apply Forall_forall. intros x [i Hi]%list_elem_of_lookup.
        destruct (Forall2_lookup_l _ _ _ _ _ Hps Hi) as (f & _ & Hf).
        rewrite <- (Forall2_length _ _ _ Henv). by eapply lookup_lt_Some.
    + rewrite decide_False; [done|]. intros Hall.
      assert (is_Some (mapM (λ x, env !! x) xs)) as [ps' Hps'];
        [|congruence].
      apply mapM_is_Some. eapply Forall_impl; [exact Hall|].
      intros x Hlt. simpl. apply lookup_lt_is_Some.
      by rewrite (Forall2_length _ _ _ Henv).
Qed.

Lemma run_calls_image cs : ∀ σ b env a,
  represents σ b env a →
  match run_calls b env cs σ, image_calls a cs with
  | Some (env', σ'), Some a' => represents σ' b env' a'
  | None, None => True
  | _, _ => False
  end.
Proof.
  induction cs as [|c cs IH]; intros σ b env a Hrep; simpl; [done|].
  rewrite bind_run. pose proof (run_call_image σ b env a c Hrep) as Hc.
  destruct (run_call b env c σ) as [[env' σ']|], (image_call a c) as [a'|];
    simpl; try done.
  by apply IH.
Qed.

(** The text a program builds is the text of its image, in every store. *)
Lemma build_run cs σ : fst <$> build cs σ = build_text cs.
Proof.
  unfold build, build_text. rewrite bind_run, New_run, bind_run.
  match goal with |- context [run_calls ?b [] cs ?σ0] =>
    pose proof (run_calls_image cs σ0 b [] (mkImage [] [])) as H end.
  destruct (run_calls _ [] cs _) as [[env' σ']|],
           (image_calls (mkImage [] []) cs) as [a'|]; simpl.
  - apply (represents_text _ _ env'), H.
    split; [apply NoDup_nil_2|]. split; [constructor|].
    eexists. split; [apply lookup_insert_eq|constructor].
  - exfalso. apply H.
    split; [apply NoDup_nil_2|]. split; [constructor|].
    eexists. split; [apply lookup_insert_eq|constructor].
  - exfalso. apply H.
    split; [apply NoDup_nil_2|]. split; [constructor|].
    eexists. split; [apply lookup_insert_eq|constructor].
  - done.
Qed.

(** * The claims *)

(** C1: for every sequence of groups held by a builder, [String] returns
    the text obtained by joining each member's comma-joined clause list with
    commas inside a group, wrapping each group in one bracket pair, joining
    the bracketed groups with commas and wrapping the whole in one outer
    bracket pair.  In particular the builder with two groups, each of one
    comparison with two operands of [Equal], gives exactly
    [[["k1=a","k1=b"],["k2=c","k2=d"]]]. *)
Theorem serialize_follows_grammar :
  (∀ σ b c, contents σ b = Some c → facets_String b σ = Some (render c, σ))
  ∧ (∀ σ, fst <$> two_groups σ = Some two_groups_text).
Proof.
  split.
  - intros σ b c H. by rewrite facets_String_reader, H.
  - apply two_groups_run.
Qed.

Lemma serialize_follows_grammar_witness :
  contents sample_store 1%positive = Some [[[quoted "categories=fabric"]]]
  ∧ facets_String 1%positive sample_store
    = Some ("[[" +:+ quoted "categories=fabric" +:+ "]]", sample_store).
Proof.
  split; [vm_compute; reflexivity|].
  apply (proj1 serialize_follows_grammar sample_store 1%positive
           [[[quoted "categories=fabric"]]]).
  vm_compute; reflexivity.
Defined.

(** C2: on an instance with any key, one call of an operator method with
    one operand [v] appends exactly one clause, the key, the symbol and [v]
    between double quotes, the symbol being [=], [!=], [<], [<=], [>], [>=]
    for Equal, NotEqual, Less, LessOrEqual, Greater, GreaterOrEqual. *)
Theorem single_operand_single_clause σ f p v :
  comparisons σ !! f = Some p →
  Equal f [v] σ
    = Some (f, with_clauses σ f p [dquote +:+ key p +:+ "=" +:+ v +:+ dquote])
  ∧ NotEqual f [v] σ
    = Some (f, with_clauses σ f p [dquote +:+ key p +:+ "!=" +:+ v +:+ dquote])
  ∧ Less f [v] σ
    = Some (f, with_clauses σ f p [dquote +:+ key p +:+ "<" +:+ v +:+ dquote])
  ∧ LessOrEqual f [v] σ
    = Some (f, with_clauses σ f p [dquote +:+ key p +:+ "<=" +:+ v +:+ dquote])
  ∧ Greater f [v] σ
    = Some (f, with_clauses σ f p [dquote +:+ key p +:+ ">" +:+ v +:+ dquote])
  ∧ GreaterOrEqual f [v] σ
    = Some (f, with_clauses σ f p [dquote +:+ key p +:+ ">=" +:+ v +:+ dquote]).
Proof.
  intros H.
  pose proof (λ o, method_run o f [v] σ p H) as Hm.
  repeat split.
  - apply (Hm OpEqual).
  - apply (Hm OpNotEqual).
  - apply (Hm OpLess).
  - apply (Hm OpLessOrEqual).
  - apply (Hm OpGreater).
  - apply (Hm OpGreaterOrEqual).
Qed.

Lemma single_operand_single_clause_witness :
  comparisons sample_store !! 2%positive = Some (mkFacetProp "versions" [])
  ∧ comparisons <$> (snd <$> LessOrEqual 2%positive ["1.19.4"] sample_store)
    = Some (<[2%positive := mkFacetProp "versions" [quoted "versions<=1.19.4"]]>
              (comparisons sample_store)).
Proof.
  split; [vm_compute; reflexivity|].
  destruct (single_operand_single_clause sample_store 2%positive
              (mkFacetProp "versions" []) "1.19.4")
    as (_ & _ & _ & H & _); [vm_compute; reflexivity|].
  rewrite H. reflexivity.
Defined.

(** C3: one operator call with operands [s] appends as many clauses as
    there are operands, each made with that call's operator; a chain of
    calls on the same instance, with any mix of operators, accumulates the
    clauses in call order, each clause keeping the operator of its call. *)
Theorem clauses_accumulate_in_call_order σ f p :
  comparisons σ !! f = Some p →
  (∀ o s, ∃ cs,
      method o f s σ = Some (f, with_clauses σ f p cs)
      ∧ length cs = length s
      ∧ Forall2 (λ c v, c = clause (key p) o v) cs s)
  ∧ (∀ calls,
      chain f calls σ
      = Some (f, with_clauses σ f p
                   (mjoin (map (λ c, map (clause (key p) c.1) c.2) calls)))).
Proof.
  intros H. split.
  - intros o s. exists (map (clause (key p) o) s). split; [|split].
    + by apply method_run.
    + apply length_map.
    + apply Forall2_fmap_l, Forall_Forall2_diag, Forall_forall. done.
  - intros calls. by apply chain_run.
Qed.

Lemma clauses_accumulate_in_call_order_witness :
  comparisons sample_store !! 1%positive = Some sample_prop
  ∧ comparisons
      <$> (snd <$> chain 1%positive
             [(OpEqual, ["quilt"; "forge"]); (OpNotEqual, ["bukkit"])]
             sample_store)
    = Some (<[1%positive :=
               mkFacetProp "categories"
                 [quoted "categories=fabric"; quoted "categories=quilt";
                  quoted "categories=forge"; quoted "categories!=bukkit"]]>
              (comparisons sample_store)).
Proof.
  split; [vm_compute; reflexivity|].
  destruct (clauses_accumulate_in_call_order sample_store 1%positive sample_prop)
    as [_ H]; [vm_compute; reflexivity|].
  rewrite H. reflexivity.
Defined.

(** C4: a builder that holds no group serializes to the two characters
    [[]]: the outer bracket pair with nothing inside. *)
Theorem zero_groups_serialize_to_empty_brackets σ b g :
  builders σ !! b = Some g →
  props g = [] →
  facets_String b σ = Some ("[]", σ) ∧ String.length "[]" = 2.
Proof.
  intros Hb Hg. split; [|done].
  rewrite facets_String_reader. unfold contents. rewrite Hb; simpl.
  by rewrite Hg.
Qed.

Lemma zero_groups_serialize_to_empty_brackets_witness :
  facets_String 2%positive sample_store = Some ("[]", sample_store).
Proof.
  apply (zero_groups_serialize_to_empty_brackets sample_store 2%positive
           (mkFacets [] [])); vm_compute; reflexivity.
Defined.

(** [New()] without comparison makes such a builder. *)
Lemma New_without_comparison σ :
  fst <$> (New [] ≫= facets_String) σ = Some "[]".
Proof.
  exec. unfold contents; simpl. by rewrite lookup_insert_eq.
Qed.

(** C5: [And()] with no comparison appends an empty group to the groups the
    builder holds, and the serialization then carries the element [[]] for
    it, after the earlier groups, inside the outer brackets. *)
Theorem empty_group_is_serialized σ b g c :
  builders σ !! b = Some g →
  contents σ b = Some c →
  ∃ σ', And b [] σ = Some (b, σ')
        ∧ comparisons σ' = comparisons σ
        ∧ builders σ' !! b = Some (mkFacets (facets_state g) (props g ++ [[]]))
        ∧ facets_String b σ'
          = Some ("[" +:+ strings_Join (map render_group c ++ ["[]"]) ","
                      +:+ "]", σ').
Proof.
  intros Hb Hc. eexists. split; [by apply And_run|].
  split; [done|]. split; [apply lookup_insert_eq|].
  rewrite facets_String_reader.
  rewrite (contents_And σ b g [] c [] Hb Hc eq_refl); simpl.
  unfold render. by rewrite map_app.
Qed.

Lemma empty_group_is_serialized_witness :
  fst <$> (And 1%positive [] ≫= facets_String) sample_store
  = Some ("[[" +:+ quoted "categories=fabric" +:+ "],[]]").
Proof.
  destruct (empty_group_is_serialized sample_store 1%positive
              (mkFacets [] [[1%positive]]) [[[quoted "categories=fabric"]]])
    as (σ' & HA & _ & _ & HS); [vm_compute; reflexivity..|].
  rewrite (bind_Some _ _ _ _ _ HA), HS. reflexivity.
Defined.

(** C6: serialization returns the store it was given, so the builder's
    groups and every clause list are as before, and a second call returns
    the same text as the first.  The rendering of a comparison leaves the
    store as it was, too. *)
Theorem serialization_is_idempotent σ b c :
  contents σ b = Some c →
  ∃ s, facets_String b σ = Some (s, σ)
       ∧ (facets_String b ≫= λ s1, facets_String b ≫= λ s2, ret (s1, s2)) σ
         = Some ((s, s), σ)
       ∧ (∀ f t σ', facetProp_String f σ = Some (t, σ') → σ' = σ)
       ∧ (∀ e t σ', propList_String e σ = Some (t, σ') → σ' = σ).
Proof.
  intros Hc. exists (render c).
  assert (facets_String b σ = Some (render c, σ)) as Hs
    by (by rewrite facets_String_reader, Hc).
  split; [exact Hs|]. split.
  - rewrite (bind_Some _ _ _ _ _ Hs). by rewrite (bind_Some _ _ _ _ _ Hs).
  - split.
    + intros f t σ'. rewrite facetProp_String_reader.
      destruct (clauses_of σ f); simpl; congruence.
    + intros e t σ'. rewrite propList_String_reader.
      destruct (group_contents σ e); simpl; congruence.
Qed.

Lemma serialization_is_idempotent_witness :
  (facets_String 1%positive ≫= λ s1, facets_String 1%positive ≫= λ s2,
     ret (s1, s2)) sample_store
  = Some (("[[" +:+ quoted "categories=fabric" +:+ "]]",
           "[[" +:+ quoted "categories=fabric" +:+ "]]"), sample_store).
Proof.
  destruct (serialization_is_idempotent sample_store 1%positive
              [[[quoted "categories=fabric"]]])
    as (s & Hs & Htwice & _); [vm_compute; reflexivity|].
  rewrite Htwice. vm_compute in Hs. injection Hs as <-. reflexivity.
Defined.

(** C7: no operation rejects its input.  On a live instance every operator
    method accepts every list of operands and writes each operand as it is
    between the key with the symbol and the closing quote; on a live
    builder [And] accepts every list of members; the constructors always
    return; and a builder whose members are live always serializes. *)
Theorem operations_are_total σ f p b g :
  comparisons σ !! f = Some p →
  builders σ !! b = Some g →
  (∀ o s, method o f s σ
          = Some (f, with_clauses σ f p
                       (map (λ v, dquote +:+ key p +:+ symbol o +:+ v +:+ dquote) s)))
  ∧ (∀ ps, ∃ σ', And b ps σ = Some (b, σ')
                 ∧ builders σ' !! b
                   = Some (mkFacets (facets_state g) (props g ++ [ps])))
  ∧ (∀ k, is_Some (newFacetProp k σ))
  ∧ (∀ ps, is_Some (New ps σ))
  ∧ is_Some (facetProp_String f σ)
  ∧ (is_Some (contents σ b) → is_Some (facets_String b σ)).
Proof.
  intros Hf Hb. repeat split.
  - intros o s. apply (method_run o f s σ p Hf).
  - intros ps. eexists. split; [by apply And_run|]. apply lookup_insert_eq.
  - intros k. by rewrite newFacetProp_run.
  - intros ps. by rewrite New_run.
  - rewrite facetProp_String_reader. unfold clauses_of. by rewrite Hf.
  - intros [c Hc]. by rewrite facets_String_reader, Hc.
Qed.

(** An operand with a quote, a comma and brackets, and the empty operand. *)
Lemma operations_are_total_witness :
  comparisons
    <$> (snd <$> Equal 2%positive [dquote +:+ ",[x]"; EmptyString] sample_store)
  = Some (<[2%positive :=
             mkFacetProp "versions"
               [dquote +:+ "versions=" +:+ dquote +:+ ",[x]" +:+ dquote;
                quoted "versions="]]>
            (comparisons sample_store)).
Proof.
  destruct (operations_are_total sample_store 2%positive
              (mkFacetProp "versions" []) 1%positive (mkFacets [] [[1%positive]]))
    as (H & _); [vm_compute; reflexivity..|].
  change (Equal 2%positive) with (method OpEqual 2%positive).
  rewrite H. reflexivity.
Defined.

(** C8: the text depends on nothing but the calls and their order.  The
    same sequence of calls gives the same text whatever the stores (and so
    the addresses of the objects) in which the two builders are made; and
    nothing is sorted: the two programs of [two_orders], which add the same
    two groups in the two orders, give two different texts, each listing
    the groups as they were added. *)
Theorem output_follows_insertion_order :
  (∀ cs σ1 σ2, fst <$> build cs σ1 = fst <$> build cs σ2)
  ∧ (∀ σ1 σ2,
       fst <$> build (two_orders [0] [1]) σ1
       = Some ("[[" +:+ quoted "versions=1.19.4" +:+ "],["
                    +:+ quoted "categories=fabric" +:+ "]]")
       ∧ fst <$> build (two_orders [1] [0]) σ2
         = Some ("[[" +:+ quoted "categories=fabric" +:+ "],["
                      +:+ quoted "versions=1.19.4" +:+ "]]")
       ∧ fst <$> build (two_orders [0] [1]) σ1
         ≠ fst <$> build (two_orders [1] [0]) σ2).
Proof.
  split.
  - intros cs σ1 σ2. by rewrite !build_run.
  - intros σ1 σ2. rewrite !build_run. repeat split.
    vm_compute. discriminate.
Qed.

(** C9: a comparison on which no operator method was called renders as the
    empty text.  A group of one such comparison is serialized as [[]]; a
    group of one such comparison followed by a comparison holding the one
    clause ["key=value"] is serialized as [[,"key=value"]], which is not a
    group of the output grammar (and the builder's text around it is not an
    output of the grammar either). *)
Theorem fresh_comparison_renders_empty σ k :
  fst <$> (newFacetProp k ≫= facetProp_String) σ = Some EmptyString
  ∧ fst <$> (f ← newFacetProp k; facets_String_group [f] 0) σ = Some "[]"
  ∧ fst <$> (f1 ← newFacetProp k;
             f2 ← newFacetProp "key";
             Equal f2 ["value"];;
             facets_String_group [f1; f2] 0) σ
    = Some ("[," +:+ quoted "key=value" +:+ "]")
  ∧ fst <$> (f1 ← newFacetProp k;
             f2 ← newFacetProp "key";
             Equal f2 ["value"];;
             b ← New [f1; f2];
             facets_String b) σ
    = Some ("[[," +:+ quoted "key=value" +:+ "]]")
  ∧ ¬ is_group ("[," +:+ quoted "key=value" +:+ "]")
  ∧ ¬ is_outer ("[[," +:+ quoted "key=value" +:+ "]]").
Proof.
  repeat split.
  - exec. unfold clauses_of; simpl. by rewrite lookup_insert_eq.
  - exec. unfold group_contents, clauses_of; simpl.
    by rewrite lookup_insert_eq.
  - exec. unfold group_contents, clauses_of; simpl.
    by lookups.
  - exec. unfold contents, group_contents, clauses_of; simpl.
    rewrite lookup_insert_eq; simpl.
    by lookups.
  - intros (a & r & Heq & Ha)%is_group_head.
    injection Heq as <- _. by destruct Ha.
  - intros [Heq|(a & r & Heq & Ha)]%is_outer_head; [done|].
    injection Heq as <- _. by destruct Ha.
Qed.

(** C10: every invocation of one of the six package-level constructors
    returns a new instance with the constructor's key and no clause, and
    the instances of distinct invocations are independent. *)
Theorem constructors_return_fresh_instances :
  constructs_independent ProjectType "project_type"
  ∧ constructs_independent Versions "versions"
  ∧ constructs_independent Categories "categories"
  ∧ constructs_independent ClientSide "client_side"
  ∧ constructs_independent ServerSide "server_side"
  ∧ constructs_independent OpenSource "open_source".
Proof. repeat split; apply newFacetProp_independent. Qed.

(** A second invocation of [Categories], in the store left by a first one
    whose instance sits at reference 1: the new instance is another one and
    a call on it leaves the first without clause. *)
Lemma constructors_return_fresh_instances_witness :
  ∃ f σ' σ'',
    Categories (mkStore {[1%positive := mkFacetProp "categories" []]} ∅)
    = Some (f, σ')
    ∧ f ≠ 1%positive
    ∧ Equal f ["fabric"] σ' = Some (f, σ'')
    ∧ comparisons σ'' !! 1%positive = Some (mkFacetProp "categories" []).
Proof.
  pose proof constructors_return_fresh_instances as (_ & _ & H & _).
  destruct (H (mkStore {[1%positive := mkFacetProp "categories" []]} ∅))
    as (f & σ' & Hrun & _ & _ & _ & Hind).
  destruct (Hind 1%positive (mkFacetProp "categories" []))
    as [Hne Hops]; [vm_compute; reflexivity|].
  destruct (Hops OpEqual ["fabric"]) as [(σ'' & Hcall & Hkept) _].
  exists f, σ', σ''. repeat split; [exact Hrun| |exact Hcall|exact Hkept].
  intros E. by apply Hne.
Defined.

(** * Further properties of the package *)

(** ** Texts *)

Lemma append_cons a (s t : string) : String a s +:+ t = String a (s +:+ t).
Proof. reflexivity. Qed.

Lemma append_nil_r (s : string) : s +:+ EmptyString = s.
Proof. induction s as [|a s IH]; [done|]. by rewrite append_cons, IH. Qed.

Lemma append_assoc (s t u : string) : (s +:+ t) +:+ u = s +:+ t +:+ u.
Proof. induction s as [|a s IH]; [done|]. by rewrite !append_cons, IH. Qed.

Lemma strings_Join_cons x y l sep :
  strings_Join (x :: y :: l) sep = x +:+ sep +:+ strings_Join (y :: l) sep.
Proof. reflexivity. Qed.

Lemma strings_Join_app l1 l2 sep :
  l1 ≠ [] → l2 ≠ [] →
  strings_Join (l1 ++ l2) sep
  = strings_Join l1 sep +:+ sep +:+ strings_Join l2 sep.
Proof.
  intros H1 H2. induction l1 as [|x [|y l1] IH]; [done| |].
  - destruct l2 as [|z l2]; [done|]. reflexivity.
  - change ((x :: y :: l1) ++ l2) with (x :: y :: (l1 ++ l2)).
    rewrite !strings_Join_cons.
    change (y :: l1 ++ l2) with ((y :: l1) ++ l2).
    rewrite IH by done. by rewrite !append_assoc.
Qed.

(** ** Loops *)

Lemma range_app {A} (s1 s2 : list A) body σ :
  range (s1 ++ s2) body σ = (range s1 body ≫= λ _, range s2 body) σ.
Proof.
  revert σ. induction s1 as [|v s1 IH]; intros σ; [done|].
  simpl. rewrite !bind_run. destruct (body v σ) as [[[] σ1]|]; [|done].
  by rewrite IH, bind_run.
Qed.

(** X1: [New(ps...)] with at least one comparison is [New()] followed by
    [And(ps...)]: the same builder reference and the same store. *)
Theorem New_is_New_then_And ps σ :
  ps ≠ [] → New ps σ = (New [] ≫= λ b, And b ps) σ.
Proof.
  intros Hps. rewrite bind_run, !New_run.
  erewrite And_run by (simpl; apply lookup_insert_eq).
  destruct ps; [done|]. simpl. by rewrite insert_insert_eq.
Qed.

Lemma New_is_New_then_And_witness :
  New [1%positive] sample_store
  = (New [] ≫= λ b, And b [1%positive]) sample_store.
Proof. apply New_is_New_then_And. discriminate. Defined.

(** X2: without comparison the two differ.  [New()] makes a builder with
    no group, whose text is [[]]; [And()] on it adds an empty group, and
    the text becomes [[[]]]. *)
Theorem New_without_comparison_adds_no_group σ :
  (∃ b, New [] σ
        = Some (b, mkStore (comparisons σ)
                     (<[b := mkFacets [] []]> (builders σ)))
        ∧ builders σ !! b = None)
  ∧ fst <$> (New [] ≫= facets_String) σ = Some "[]"
  ∧ fst <$> (New [] ≫= λ b, And b [] ≫= facets_String) σ = Some "[[]]".
Proof.
  split; [|split].
  - eexists. split; [apply New_run|]. apply not_elem_of_dom, is_fresh.
  - exec. unfold contents; simpl. by rewrite lookup_insert_eq.
  - exec. unfold contents; simpl. by rewrite lookup_insert_eq.
Qed.

(** ** Members are shared with the builder *)

Lemma mapM_pointwise {A B} (h : A → option B) (h' : A → B) (l : list A) :
  Forall (λ x, h x = Some (h' x)) l → mapM h l = Some (map h' l).
Proof.
  induction 1 as [|x l Hx _ IH]; [done|]. simpl. by rewrite Hx, IH.
Qed.

Lemma contents_live σ b :
  is_Some (contents σ b) ↔ live_members σ b.
Proof.
  unfold contents, live_members. destruct (builders σ !! b) as [g|]; simpl.
  - rewrite mapM_is_Some. split.
    + intros H. exists g. split; [done|].
      eapply Forall_impl; [exact H|]. intros e He. simpl in He.
      unfold group_contents in He. apply mapM_is_Some in He.
      eapply Forall_impl; [exact He|]. intros f Hf. simpl in Hf.
      unfold clauses_of in Hf. by apply fmap_is_Some in Hf.
    + intros (g' & [= <-] & H).
      eapply Forall_impl; [exact H|]. intros e He. simpl.
      unfold group_contents. apply mapM_is_Some.
      eapply Forall_impl; [exact He|]. intros f Hf. simpl.
      unfold clauses_of. by apply fmap_is_Some.
  - split; [by intros [? ?]|by intros (g & ? & _)].
Qed.

(** X3: a group holds its members by reference.  When an operator method
    is called on an instance after the instance was added to groups, the
    builder's text shows the new clauses at every place where the instance
    is a member, and the other members as they were. *)
Theorem member_calls_show_in_builder σ b g f p o s :
  builders σ !! b = Some g →
  comparisons σ !! f = Some p →
  live_members σ b →
  (method o f s ≫= λ _, facets_String b) σ
  = Some (render
            (map (map (λ f', if decide (f' = f)
                             then state p ++ map (clause (key p) o) s
                             else default [] (clauses_of σ f')))
                 (props g)),
          with_clauses σ f p (map (clause (key p) o) s)).
Proof.
  intros Hb Hf (g' & Hb' & Hlive).
  assert (g' = g) as -> by congruence.
  rewrite (bind_Some _ _ _ _ _ (method_run o f s σ p Hf)).
  rewrite facets_String_reader. unfold contents; simpl. rewrite Hb; simpl.
  erewrite mapM_pointwise; [done|].
  eapply Forall_impl; [exact Hlive|]. intros e He. simpl.
  unfold group_contents. apply mapM_pointwise.
  eapply Forall_impl; [exact He|]. intros f' [p' Hp']. simpl.
  unfold clauses_of; simpl. destruct (decide (f' = f)) as [->|Hne].
  - by rewrite lookup_insert_eq.
  - rewrite lookup_insert_ne by done. by rewrite Hp'.
Qed.

(** The instance of the sample store is added to a second group of its
    builder and then receives a clause: both groups show it. *)
Lemma member_calls_show_in_builder_witness :
  fst <$> (And 1%positive [1%positive] ≫= λ b,
           Equal 1%positive ["quilt"] ≫= λ _, facets_String b) sample_store
  = Some ("[[" +:+ quoted "categories=fabric" +:+ "," +:+ quoted "categories=quilt"
          +:+ "],[" +:+ quoted "categories=fabric" +:+ ","
          +:+ quoted "categories=quilt" +:+ "]]").
Proof.
  rewrite bind_run.
  rewrite (And_run 1%positive [1%positive] sample_store
             (mkFacets [] [[1%positive]]) eq_refl).
  change (Equal 1%positive) with (method OpEqual 1%positive).
  rewrite (member_calls_show_in_builder _ 1%positive
             (mkFacets [] [[1%positive]; [1%positive]]) 1%positive sample_prop).
  - reflexivity.
  - vm_compute; reflexivity.
  - vm_compute; reflexivity.
  - eexists. split; [vm_compute; reflexivity|].
    repeat constructor; vm_compute; eauto.
Defined.

(** X4: [String] on a builder returns exactly when the builder and every
    member of every one of its groups are live objects; when the builder
    or one member is nil, it panics. *)
Theorem facets_String_returns_iff_members_live σ b :
  is_Some (facets_String b σ) ↔ live_members σ b.
Proof.
  rewrite facets_String_reader, fmap_is_Some. apply contents_live.
Qed.

(** X5: operands may be given in one call or in several: an operator
    method called with [s1 ++ s2] acts as the method called with [s1] and
    then, on the instance it returned, with [s2]. *)
Theorem operands_split o f s1 s2 σ :
  method o f (s1 ++ s2) σ = (method o f s1 ≫= λ f', method o f' s2) σ.
Proof.
  assert (∀ format,
    (range (s1 ++ s2) (append_clause format f) ≫= λ _, ret f) σ
    = ((range s1 (append_clause format f) ≫= λ _, ret f)
         ≫= λ f', range s2 (append_clause format f') ≫= λ _, ret f') σ) as H.
  { intros format. rewrite !bind_run, range_app, bind_run.
    destruct (range s1 (append_clause format f) σ) as [[[] σ1]|]; [|done].
    simpl. by rewrite bind_run. }
  destruct o; apply H.
Qed.

(** ** Nothing is ever removed *)

Lemma range_nil_receiver format f v s σ :
  comparisons σ !! f = None →
  range (v :: s) (append_clause format f) σ = None.
Proof.
  intros H. simpl. rewrite bind_run. unfold append_clause.
  rewrite bind_run. unfold load_prop. by rewrite H.
Qed.

(** What an operator method that returns has done: nothing, when it had no
    operand, and else the appending of its clauses to a live instance. *)
Lemma method_inv o f s σ r σ' :
  method o f s σ = Some (r, σ') →
  r = f
  ∧ (σ' = σ
     ∨ ∃ p, comparisons σ !! f = Some p
            ∧ σ' = with_clauses σ f p (map (clause (key p) o) s)).
Proof.
  destruct (comparisons σ !! f) as [p|] eqn:Hf.
  - rewrite (method_run o f s σ p Hf). intros [= <- <-]. eauto.
  - destruct s as [|v s].
    + assert (method o f [] σ = Some (f, σ)) as -> by (by destruct o).
      intros [= <- <-]. eauto.
    + assert (method o f (v :: s) σ = None) as ->; [|done].
      destruct o; unfold method, Equal, NotEqual, Less, LessOrEqual, Greater,
        GreaterOrEqual; by rewrite bind_run, range_nil_receiver.
Qed.

Lemma grows_refl σ : grows σ σ.
Proof. split; intros x y H; eauto. Qed.

Lemma grows_trans σ1 σ2 σ3 : grows σ1 σ2 → grows σ2 σ3 → grows σ1 σ3.
Proof.
  intros [Hc12 Hb12] [Hc23 Hb23]. split.
  - intros f p Hp. destruct (Hc12 f p Hp) as (p2 & Hp2 & Hk2 & Hs2).
    destruct (Hc23 f p2 Hp2) as (p3 & Hp3 & Hk3 & Hs3).
    exists p3. split; [done|]. split; [congruence|]. by etrans.
  - intros b g Hg. destruct (Hb12 b g Hg) as (g2 & Hg2 & Hs2).
    destruct (Hb23 b g2 Hg2) as (g3 & Hg3 & Hs3).
    exists g3. split; [done|]. by etrans.
Qed.

Lemma grows_with_clauses σ f p cs :
  comparisons σ !! f = Some p → grows σ (with_clauses σ f p cs).
Proof.
  intros Hf. split; [|by eauto].
  intros f' p' Hp'. destruct (decide (f' = f)) as [->|Hne].
  - rewrite with_clauses_lookup. eexists. split; [done|].
    assert (p' = p) as -> by congruence. split; [done|]. by apply prefix_app_r.
  - rewrite with_clauses_lookup_ne by done. eauto.
Qed.

Lemma grows_api_call σ σ' : api_call σ σ' → grows σ σ'.
Proof.
  intros [k σ0 f σ0' H|o f s σ0 r σ0' H|f σ0 t σ0' H
         |ps σ0 b σ0' H|b ps σ0 r σ0' H|b σ0 t σ0' H].
  - rewrite newFacetProp_run in H. injection H as <- <-. split; [|by eauto].
    intros f p Hp. exists p. split; [|done]. simpl.
    rewrite lookup_insert_ne; [done|].
    intros E. rewrite <- E, fresh_prop_unused in Hp. done.
  - apply method_inv in H as [_ [->|(p & Hp & ->)]];
      [apply grows_refl|by apply grows_with_clauses].
  - rewrite facetProp_String_reader in H.
    destruct (clauses_of σ0 f); simplify_eq/=. apply grows_refl.
  - rewrite New_run in H. injection H as <- <-. split; [by eauto|].
    intros b g Hg. exists g. split; [|done]. simpl.
    rewrite lookup_insert_ne; [done|].
    intros E. rewrite <- E in Hg.
    pose proof (is_fresh (dom (builders σ0))) as Hfresh.
    apply Hfresh, elem_of_dom. eauto.
  - unfold And in H. rewrite bind_run in H. unfold load_facets in H.
    destruct (builders σ0 !! b) as [g|] eqn:Hb; [|done].
    simpl in H. injection H as <- <-. split; [by eauto|].
    intros b' g' Hg'. simpl. destruct (decide (b' = b)) as [->|Hne].
    + rewrite lookup_insert_eq. eexists. split; [done|].
      assert (g' = g) as -> by congruence. simpl. by apply prefix_app_r.
    + rewrite lookup_insert_ne by done. eauto.
  - rewrite facets_String_reader in H.
    destruct (contents σ0 b); simplify_eq/=. apply grows_refl.
Qed.

(** X6: no call of the package removes anything.  After any sequence of
    calls, every instance that existed is still there with the same key and
    with its earlier clauses at the front of its clause list, and every
    builder that existed is still there with its earlier groups at the
    front of its groups. *)
Theorem calls_only_add σ σ' : rtc api_call σ σ' → grows σ σ'.
Proof.
  induction 1 as [σ|σ1 σ2 σ3 Hcall _ IH]; [apply grows_refl|].
  eapply grows_trans; [by apply grows_api_call|exact IH].
Qed.

Lemma calls_only_add_witness :
  grows sample_store
    (mkStore
       (<[1%positive := mkFacetProp "categories"
                          [quoted "categories=fabric"; quoted "categories!=forge"]]>
          (comparisons sample_store))
       (<[2%positive := mkFacets [] [[1%positive]]]> (builders sample_store))).
Proof.
  apply calls_only_add.
  eapply rtc_l;
    [eapply (call_method OpNotEqual 1%positive ["forge"]); reflexivity|].
  eapply rtc_l; [eapply (call_And 2%positive [1%positive]); reflexivity|].
  vm_compute. apply rtc_refl.
Defined.

(** ** The text of a group and the output grammar *)

Lemma render_members_flat g :
  Forall (λ cs : list string, cs ≠ []) g →
  render_members g = strings_Join (mjoin g) ",".
Proof.
  unfold render_members.
  induction 1 as [|cs g Hcs Hg IH]; [done|].
  destruct Hg as [|cs' g' Hcs' Hg'].
  - simpl. by rewrite app_nil_r.
  - change (map render_comparison (cs :: cs' :: g'))
      with (render_comparison cs :: render_comparison cs'
              :: map render_comparison g').
    rewrite strings_Join_cons.
    change (render_comparison cs' :: map render_comparison g')
      with (map render_comparison (cs' :: g')).
    rewrite IH. change (mjoin (cs :: cs' :: g')) with (cs ++ mjoin (cs' :: g')).
    rewrite strings_Join_app; [done..|].
    simpl. destruct cs'; [done|]. done.
Qed.

(** X7: when no member of a group is without clause, the text of the group
    is the comma-joined list of all its members' clauses, so it does not
    show how the clauses are divided among the members: one comparison with
    several operands and several comparisons with one operand each give the
    same text. *)
Theorem group_text_is_all_clauses σ e g :
  group_contents σ e = Some g →
  Forall (λ cs : list string, cs ≠ []) g →
  propList_String e σ = Some (strings_Join (mjoin g) ",", σ).
Proof.
  intros He Hg. rewrite propList_String_reader, He; simpl.
  by rewrite render_members_flat.
Qed.

Lemma group_text_is_all_clauses_witness :
  propList_String [1%positive; 1%positive] sample_store
  = Some (quoted "categories=fabric" +:+ "," +:+ quoted "categories=fabric",
          sample_store).
Proof.
  apply (group_text_is_all_clauses sample_store [1%positive; 1%positive]
           [[quoted "categories=fabric"]; [quoted "categories=fabric"]]).
  - vm_compute; reflexivity.
  - repeat constructor; discriminate.
Defined.

Lemma Forall_mjoin {A} (P : A → Prop) (g : list (list A)) :
  Forall (Forall P) g → Forall P (mjoin g).
Proof.
  induction 1 as [|cs g Hcs _ IH]; [constructor|].
  simpl. by apply Forall_app.
Qed.

Lemma render_group_is_group g :
  Forall (λ cs, cs ≠ [] ∧ Forall is_clause cs) g → is_group (render_group g).
Proof.
  intros Hg. unfold render_group.
  rewrite render_members_flat
    by (eapply Forall_impl; [exact Hg|]; by intros cs [? _]).
  assert (Forall is_clause (mjoin g)) as Hall.
  { apply Forall_mjoin. eapply Forall_impl; [exact Hg|]. by intros cs [_ ?]. }
  destruct (mjoin g) as [|c cs]; [by left|]. right. by exists c, cs.
Qed.

(** X8: when every member of every group holds at least one clause, and
    the clauses are clauses of the grammar, the text of the builder is an
    output of the grammar of the specification. *)
Theorem text_conforms_when_members_have_clauses σ b c :
  contents σ b = Some c →
  Forall (Forall (λ cs, cs ≠ [] ∧ Forall is_clause cs)) c →
  ∃ t, facets_String b σ = Some (t, σ) ∧ is_outer t.
Proof.
  intros Hc Hall. exists (render c). split.
  - by rewrite facets_String_reader, Hc.
  - unfold render.
    assert (Forall is_group (map render_group c)) as Hg.
    { apply Forall_fmap. eapply Forall_impl; [exact Hall|].
      intros g Hg. by apply render_group_is_group. }
    destruct (map render_group c) as [|g gs]; [by left|].
    right. by exists g, gs.
Qed.

Lemma text_conforms_when_members_have_clauses_witness :
  ∃ t, facets_String 1%positive sample_store = Some (t, sample_store)
       ∧ is_outer t.
Proof.
  apply (text_conforms_when_members_have_clauses sample_store 1%positive
           [[[quoted "categories=fabric"]]]).
  - vm_compute; reflexivity.
  - repeat constructor; [discriminate|].
    by exists "categories", OpEqual, "fabric".
Defined.

(** X9: the clause lists only ever hold clauses of the grammar: if they do
    in a store, they do after any sequence of calls of the package. *)
Theorem calls_keep_clauses_well_formed σ σ' :
  clauses_ok σ → rtc api_call σ σ' → clauses_ok σ'.
Proof.
  intros Hok Hcalls. revert Hok.
  induction Hcalls as [σ|σ1 σ2 σ3 Hcall _ IH]; [done|].
  intros Hok. apply IH. clear IH.
  destruct Hcall as [k σ0 f σ0' H|o f s σ0 r σ0' H|f σ0 t σ0' H
                    |ps σ0 b σ0' H|b ps σ0 r σ0' H|b σ0 t σ0' H].
  - rewrite newFacetProp_run in H. injection H as <- <-.
    intros f p. simpl. destruct (decide (fresh (dom (comparisons σ0)) = f))
      as [<-|Hne].
    + rewrite lookup_insert_eq. intros [= <-]. constructor.
    + rewrite lookup_insert_ne by done. apply Hok.
  - apply method_inv in H as [_ [->|(p & Hp & ->)]]; [done|].
    intros f' p'. destruct (decide (f' = f)) as [->|Hne].
    + rewrite with_clauses_lookup. intros [= <-]. simpl.
      apply Forall_app. split; [by eapply Hok|].
      apply Forall_fmap, Forall_true. intros v. by exists (key p), o, v.
    + rewrite with_clauses_lookup_ne by done. apply Hok.
  - rewrite facetProp_String_reader in H.
    by destruct (clauses_of σ0 f); simplify_eq/=.
  - rewrite New_run in H. injection H as <- <-. exact Hok.
  - unfold And in H. rewrite bind_run in H. unfold load_facets in H.
    destruct (builders σ0 !! b); [|done]. simpl in H.
    injection H as <- <-. exact Hok.
  - rewrite facets_String_reader in H.
    by destruct (contents σ0 b); simplify_eq/=.
Qed.

Lemma calls_keep_clauses_well_formed_witness :
  clauses_ok
    (mkStore
       (<[1%positive := mkFacetProp "categories"
                          [quoted "categories=fabric"; quoted "categories!=forge"]]>
          (comparisons sample_store))
       (builders sample_store)).
Proof.
  apply (calls_keep_clauses_well_formed sample_store).
  - intros f p Hp.
    destruct (decide (f = 1%positive)) as [->|H1];
      [|destruct (decide (f = 2%positive)) as [->|H2]].
    + injection Hp as <-. repeat constructor.
      by exists "categories", OpEqual, "fabric".
    + injection Hp as <-. constructor.
    + unfold sample_store in Hp; simpl in Hp.
      rewrite lookup_insert_ne, lookup_singleton_ne in Hp by done. done.
  - eapply rtc_l;
      [eapply (call_method OpNotEqual 1%positive ["forge"]); reflexivity|].
    vm_compute. apply rtc_refl.
Defined.

(** ** Operands are not escaped *)

Lemma strings_Join_snoc l x sep :
  l ≠ [] → strings_Join (l ++ [x]) sep = strings_Join l sep +:+ sep +:+ x.
Proof. intros Hl. by rewrite strings_Join_app. Qed.

(** X10: an operand is copied into the text without escaping, so one
    operand that contains a quote, a comma and a quote reads as two
    clauses.  With [v] made of [a], a quote, a comma, a quote, the key, the
    equals sign and [b]: the instance after [Equal(v)] holds one clause
    less than after [Equal(a, b)], and the two have the same text. *)
Theorem operand_can_forge_a_clause σ f p a b :
  comparisons σ !! f = Some p →
  ∃ σ1 σ2 p1 p2,
    Equal f [a +:+ dquote +:+ "," +:+ dquote +:+ key p +:+ "=" +:+ b] σ
    = Some (f, σ1)
    ∧ Equal f [a; b] σ = Some (f, σ2)
    ∧ comparisons σ1 !! f = Some p1
    ∧ comparisons σ2 !! f = Some p2
    ∧ length (state p2) = S (length (state p1))
    ∧ ∃ t, facetProp_String f σ1 = Some (t, σ1)
           ∧ facetProp_String f σ2 = Some (t, σ2).
Proof.
  intros Hf.
  pose proof (λ s, method_run OpEqual f s σ p Hf) as Hrun.
  change (method OpEqual) with Equal in Hrun.
  eexists _, _, _, _. split; [apply Hrun|]. split; [apply Hrun|].
  split; [apply with_clauses_lookup|]. split; [apply with_clauses_lookup|].
  split; [simpl; rewrite !length_app; simpl; lia|].
  eexists. rewrite !facetProp_String_reader. unfold clauses_of.
  rewrite !with_clauses_lookup; simpl. split; [reflexivity|].
  do 2 f_equal. unfold render_comparison.
  destruct (state p) as [|c0 st] eqn:Hst.
  - simpl. unfold clause, strings_Join; simpl. by rewrite !append_assoc.
  - rewrite (strings_Join_app (c0 :: st) [_; _]) by done.
    rewrite strings_Join_snoc by done.
    unfold clause, strings_Join; simpl. by rewrite !append_assoc.
Qed.

Lemma operand_can_forge_a_clause_witness :
  fst <$> (Equal 2%positive ["1.19" +:+ quoted "," +:+ "versions=1.20"]
             ≫= facetProp_String) sample_store
  = Some (quoted "versions=1.19" +:+ "," +:+ quoted "versions=1.20").
Proof.
  destruct (operand_can_forge_a_clause sample_store 2%positive
              (mkFacetProp "versions" []) "1.19" "1.20")
    as (σ1 & σ2 & p1 & p2 & H1 & H2 & _ & _ & _ & t & Ht1 & Ht2);
    [vm_compute; reflexivity|].
  change ("1.19" +:+ quoted "," +:+ "versions=1.20")
    with ("1.19" +:+ dquote +:+ "," +:+ dquote
          +:+ key (mkFacetProp "versions" []) +:+ "=" +:+ "1.20").
  rewrite (bind_Some _ _ _ _ _ H1), Ht1.
  vm_compute in H2. injection H2 as <-. vm_compute in Ht2.
  injection Ht2 as <-. reflexivity.
Defined.

(** * Properties of package labrinth *)

Import labrinth.

(** ** [queryArray] *)

Lemma queryArray_unfold v :
  queryArray v = "[" +:+ strings_Join (map quoted v) "," +:+ "]".
Proof.
  unfold queryArray.
  change (λ (i : nat) (item : string), dquote +:+ item +:+ dquote)
    with (λ _ : nat, quoted).
  by rewrite (imap_const quoted).
Qed.

(** X11: the array of ids that [GetAll] and [EditAll] send has the format
    of a facet group.  For an instance with key [k] and no clause yet,
    the text of the group of that instance after [Equal(vs...)] is
    [queryArray] of the operands, each behind the key and the equals
    sign. *)
Theorem queryArray_is_a_facet_group σ f k vs :
  comparisons σ !! f = Some (mkFacetProp k []) →
  fst <$> (Equal f vs ≫= λ f', facets_String_group [f'] 0) σ
  = Some (queryArray (map (λ v, k +:+ "=" +:+ v) vs)).
Proof.
  intros Hf.
  change (Equal f vs) with (method OpEqual f vs).
  rewrite (bind_Some _ _ _ _ _ (method_run OpEqual f vs σ _ Hf)).
  rewrite facets_String_group_reader.
  unfold group_contents, clauses_of; simpl.
  rewrite lookup_insert_eq; simpl.
  rewrite queryArray_unfold, map_map. unfold render_group, render_members.
  simpl. unfold render_comparison. do 3 f_equal. unfold strings_Join. f_equal.
  apply map_ext. intros v. unfold clause, quoted; simpl.
  by rewrite !append_assoc.
Qed.

Lemma queryArray_is_a_facet_group_witness :
  fst <$> (Equal 2%positive ["1.19"; "1.20"]
             ≫= λ f', facets_String_group [f'] 0) sample_store
  = Some (queryArray ["versions=1.19"; "versions=1.20"]).
Proof.
  apply (queryArray_is_a_facet_group sample_store 2%positive "versions"
           ["1.19"; "1.20"]).
  vm_compute; reflexivity.
Defined.

(** X12: [queryArray] does not escape its items: one item that contains a
    quote, a comma and a quote gives the text of two items. *)
Theorem queryArray_item_can_forge_an_item a b l1 l2 :
  queryArray (l1 ++ [a +:+ dquote +:+ "," +:+ dquote +:+ b] ++ l2)
  = queryArray (l1 ++ [a; b] ++ l2).
Proof.
  rewrite !queryArray_unfold. do 2 f_equal.
  rewrite !map_app.
  assert (∀ l, strings_Join ([quoted (a +:+ dquote +:+ "," +:+ dquote +:+ b)] ++ l) ","
               = strings_Join ([quoted a; quoted b] ++ l) ",") as Hmid.
  { intros [|x l]; simpl.
    - unfold strings_Join, quoted; simpl. by rewrite !append_assoc.
    - change (strings_Join ?l ",") with (String.concat "," l).
      unfold quoted; cbn [String.concat]. by rewrite !append_assoc. }
  destruct (map quoted l1) as [|x l1'] eqn:Hl1.
  - apply Hmid.
  - rewrite !(strings_Join_app (x :: l1')) by (done || by destruct (map quoted l2)).
    by rewrite Hmid.
Qed.

(** ** Requests and responses *)

Section labrinth_client.
Context `{GoLib}.

Lemma W_bind_run {A B} (m : W A) (k : A → W B) w :
  (m ≫= k) w = match m w with Return (a, w') => k a w' | Panic => Panic end.
Proof. reflexivity. Qed.

Lemma W_bind_pure {A B} (o : outcome A) (k : A → W B) w :
  (pure o ≫= k) w = match o with Return a => k a w | Panic => Panic end.
Proof. rewrite W_bind_run. unfold pure. by destruct o. Qed.

Lemma checkResponse_2xx c r w :
  (200 ≤ StatusCode r ∧ StatusCode r ≤ 299)%Z →
  checkResponse c r w = Return (None, w).
Proof. intros Hs. unfold checkResponse. by rewrite decide_True. Qed.

(** X13: [checkResponse] sorts the status codes.  From 200 to 299 there
    is no error, and from 500 on the error is [internal server error];
    in both cases the body is not read and the unmarshaler is not called.
    For every other code, an error is returned whenever the call
    returns: for 1xx and 3xx codes as well as for 4xx. *)
Theorem checkResponse_sorts_status_codes c r w :
  ((200 ≤ StatusCode r ∧ StatusCode r ≤ 299)%Z →
   checkResponse c r w = Return (None, w))
  ∧ ((500 ≤ StatusCode r)%Z →
     checkResponse c r w
     = Return (Some (error_response
                       (mkErrorResponse (Some r) EmptyString
                          "internal server error")), w))
  ∧ (¬ (200 ≤ StatusCode r ∧ StatusCode r ≤ 299)%Z →
     ∀ e w', checkResponse c r w = Return (e, w') →
             ∃ er, e = Some (error_response er)).
Proof.
  split; [apply checkResponse_2xx|]. split.
  - intros Hs. unfold checkResponse.
    rewrite decide_False by lia. by rewrite decide_True.
  - intros Hs e w'. unfold checkResponse. rewrite decide_False by done.
    destruct (decide (500 ≤ StatusCode r)%Z); [intros [= <- <-]; eauto|].
    rewrite W_bind_run.
    destruct (io_ReadAll (Response_Body r) w) as [|[[data|err] w1]];
      [done| |intros [= <- <-]; eauto].
    rewrite W_bind_run.
    destruct (call _ _ w1) as [|[[er' [err|]] w2]];
      [done|intros [= <- <-]; eauto..].
Qed.

(** X14: a client whose JSON unmarshaler was not set cannot take an
    answer below 500: once the transport has answered and the body has
    been read, [Do] panics on the call of the nil function.  The client
    that [NewClient] returns is such a client. *)
Theorem Do_panics_without_unmarshaler c ctx req req' respData res data w w1 w2 :
  Client_JSONUnmarshaler c = None →
  Request_WithContext req ctx = Return req' →
  HTTPClient_Do (hc c) req' w = Return (Ok res, w1) →
  (StatusCode res < 500)%Z →
  io_ReadAll (Response_Body res) w1 = Return (Ok data, w2) →
  Do c ctx req respData w = Panic
  ∧ Client_JSONUnmarshaler NewClient = None.
Proof.
  intros Hu Hreq Hdo Hs Hread. split.
  - unfold Do. rewrite W_bind_pure, Hreq, W_bind_run, Hdo.
    unfold defer. rewrite W_bind_run.
    destruct (decide (200 ≤ StatusCode res ∧ StatusCode res ≤ 299)%Z) as [H2|H2].
    + rewrite (checkResponse_2xx c res w1 H2).
      rewrite W_bind_run, Hread, W_bind_run, Hu. done.
    + unfold checkResponse. rewrite decide_False by done.
      rewrite decide_False by lia. rewrite W_bind_run, Hread.
      rewrite W_bind_run, Hu. done.
  - reflexivity.
Qed.

(** X15: [NewRequest] calls the JSON marshaler exactly when a body is
    given.  Without body the marshaler does not matter; with a body, on a
    client whose marshaler was not set (as after [NewClient]), it panics
    as soon as the path has been parsed. *)
Theorem NewRequest_needs_marshaler_for_body c method path opts w :
  (∀ m, NewRequest (SetJSONMarshaler c m) method path None opts w
        = NewRequest c method path None opts w)
  ∧ (∀ u v, Client_JSONMarshaler c = None →
            URL_Parse (BaseURL c) path = Return (Ok u) →
            NewRequest c method path (Some v) opts w = Panic)
  ∧ Client_JSONMarshaler NewClient = None.
Proof.
  split; [done|]. split.
  - intros u v Hm Hu. unfold NewRequest.
    rewrite W_bind_pure, Hu, W_bind_run, W_bind_run, Hm. done.
  - reflexivity.
Qed.

End labrinth_client.

(** ** The project service *)

Section labrinth_projects.
Context `{GoLib}.



(** X18: [Edit] reads through the pointer fields of the project without
    looking at them first.  When the requested status, one of the four
    URLs, the license or the URL of the license is nil, it panics, and it
    does so before any request is built. *)
Theorem Edit_panics_on_nil_field c ctx idSlug proj w :
  RequestedStatus proj = None ∨ IssuesURL proj = None
  ∨ SourceURL proj = None ∨ WikiURL proj = None ∨ DiscordURL proj = None
  ∨ License proj = None
  ∨ (∃ l, License proj = Some l ∧ License_URL l = None) →
  Edit c ctx idSlug (Some proj) w = Panic.
Proof.
  intros Hnil. unfold Edit. rewrite W_bind_pure.
  assert (editable_of (Some proj) = Panic) as ->; [|done].
  unfold editable_of; simpl.
  destruct (License proj) as [l|]; simpl; [|done].
  destruct (RequestedStatus proj); simpl; [|done].
  destruct (IssuesURL proj); simpl; [|done].
  destruct (SourceURL proj); simpl; [|done].
  destruct (WikiURL proj); simpl; [|done].
  destruct (DiscordURL proj); simpl; [|done].
  destruct (License_URL l) eqn:Hl; simpl; [|done].
  destruct Hnil as [?|[?|[?|[?|[?|[?|(l' & [= <-] & ?)]]]]]]; congruence.
Qed.

Lemma supported_ext_dec ext :
  slices_Contains supportedImageExt ext = false ↔ ext ∉ supportedImageExt.
Proof.
  unfold slices_Contains. rewrite bool_decide_eq_false. done.
Qed.

(** X19: [ChangeIcon] and [AddGalleryImage] refuse an extension that is
    not one of the nine supported ones: they return the error
    [unsupported iamge file], no response, and leave the parameters and
    the world as they were. *)
Theorem unsupported_extension_is_refused c ctx idSlug w :
  (∀ p, Icon_Ext p ∉ supportedImageExt →
        ChangeIcon c ctx idSlug (Some p) w
        = Return ((p, (None, Some (errors_New "unsupported iamge file"))), w))
  ∧ (∀ p, Gallery_Ext p ∉ supportedImageExt →
          AddGalleryImage c ctx idSlug (Some p) w
          = Return ((p, (None, Some (errors_New "unsupported iamge file"))), w)).
Proof.
  split; intros p Hp%supported_ext_dec.
  - unfold ChangeIcon. rewrite W_bind_pure; simpl. by rewrite Hp.
  - unfold AddGalleryImage. rewrite W_bind_pure; simpl. by rewrite Hp.
Qed.

(** X20: the extension [jpg] is sent as [jpeg]: a call with [jpg] acts as
    the call with [jpeg], and it leaves [jpeg] in the caller's
    parameters. *)
Theorem jpg_is_sent_as_jpeg c ctx idSlug w :
  (∀ file,
     ChangeIcon c ctx idSlug (Some (mkEditProjectIconParams "jpg" file)) w
     = ChangeIcon c ctx idSlug (Some (mkEditProjectIconParams "jpeg" file)) w)
  ∧ (∀ featured title description ordering file,
       AddGalleryImage c ctx idSlug
         (Some (mkAddGalleryImageParams "jpg" featured title description
                  ordering file)) w
       = AddGalleryImage c ctx idSlug
           (Some (mkAddGalleryImageParams "jpeg" featured title description
                    ordering file)) w)
  ∧ (∀ file p r w',
       ChangeIcon c ctx idSlug (Some (mkEditProjectIconParams "jpg" file)) w
       = Return ((p, r), w') →
       p = mkEditProjectIconParams "jpeg" file).
Proof.
  split; [done|]. split; [done|].
  intros file p r w'. unfold ChangeIcon. rewrite W_bind_pure; simpl.
  destruct (query_Values_icon _) as [|[q|err]]; simpl;
    [done| |by intros [= <- _ _]].
  rewrite W_bind_pure; simpl. rewrite W_bind_run.
  destruct (NewUploadRequest _ _ _ _ _ _ w) as [|[[req [err|]] w1]];
    [done|by intros [= <- _ _]|].
  rewrite W_bind_run.
  destruct (Do c ctx req None w1) as [|[d w2]]; [done|].
  by intros [= <- _ _].
Qed.

(** X21: [Schedule] accepts the five requestable statuses and no other.
    For any other requested status it returns the error [project_status
    is not requestable] and no response, and builds no request. *)
Theorem Schedule_refuses_other_statuses c ctx idSlug p w :
  Schedule_RequestedStatus p
    ∉ ["approved"; "archived"; "draft"; "unlisted"; "private"] →
  Schedule c ctx idSlug (Some p) w
  = Return ((None, Some (errors_New "project_status is not requestable")), w).
Proof.
  intros Hp. unfold Schedule. rewrite W_bind_pure; simpl.
  unfold IsRequestable, slices_Contains.
  by rewrite (bool_decide_eq_false_2 _ Hp).
Qed.

End labrinth_projects.

Section labrinth_headers.
Context `{GoLib}.




End labrinth_headers.

(** ** Concrete instances for the client *)

Section labrinth_witnesses.
#[local] Existing Instance sample_types.

Lemma checkResponse_sorts_status_codes_witness :
  @checkResponse _ (sample_lib 503 "busy")
    (@NewClient _ (sample_lib 503 "busy"))
    (mkHTTPResponse 503 ∅ "busy" tt) []
  = Return (Some (error_response
                    (mkErrorResponse (Some (mkHTTPResponse 503 ∅ "busy" tt))
                       EmptyString "internal server error")), []).
Proof.
  apply (@checkResponse_sorts_status_codes _ (sample_lib 503 "busy")).
  simpl. lia.
Defined.

Lemma Do_panics_without_unmarshaler_witness :
  @Do _ (sample_lib 200 "{}") (@NewClient _ (sample_lib 200 "{}")) tt
    (Some (mkRequest ∅ ("GET", "project/sodium"))) None []
  = Panic.
Proof.
  eapply (@Do_panics_without_unmarshaler _ (sample_lib 200 "{}"));
    reflexivity.
Defined.

Lemma NewRequest_needs_marshaler_for_body_witness :
  @NewRequest _ (sample_lib 200 "{}") (@NewClient _ (sample_lib 200 "{}"))
    "PATCH" "project/sodium" (Some "body") [] []
  = Panic.
Proof.
  eapply (@NewRequest_needs_marshaler_for_body _ (sample_lib 200 "{}"));
    reflexivity.
Defined.


Lemma Edit_panics_on_nil_field_witness :
  @Edit _ (sample_lib 200 "{}") (sample_client (sample_lib 200 "{}")) tt
    "sodium"
    (Some (mkProject "sodium" "Sodium" "" [] "required" "optional" ""
             None [] (Some "") (Some "") (Some "") (Some "") []
             (Some (mkProjectLicense "MIT" "MIT" (Some ""))) tt)) []
  = Panic.
Proof.
  apply (@Edit_panics_on_nil_field _ (sample_lib 200 "{}")). by left.
Defined.

Lemma unsupported_extension_is_refused_witness :
  @ChangeIcon _ (sample_lib 200 "{}") (sample_client (sample_lib 200 "{}"))
    tt "sodium" (Some (mkEditProjectIconParams "tiff" nil_Reader)) []
  = Return ((mkEditProjectIconParams "tiff" nil_Reader,
             (None, Some (errors_New "unsupported iamge file"))), []).
Proof.
  apply (@unsupported_extension_is_refused _ (sample_lib 200 "{}")).
  apply (bool_decide_unpack _). by vm_compute.
Defined.

Lemma jpg_is_sent_as_jpeg_witness :
  match @ChangeIcon _ (sample_lib 200 "{}")
          (sample_client (sample_lib 200 "{}")) tt "sodium"
          (Some (mkEditProjectIconParams "jpg" nil_Reader)) [] with
  | Return ((p, (Some _, None)), _) => Icon_Ext p = "jpeg"
  | _ => False
  end.
Proof.
  pose proof (proj2 (proj2 (@jpg_is_sent_as_jpeg _ (sample_lib 200 "{}")
                              (sample_client (sample_lib 200 "{}"))
                              tt "sodium" [])) nil_Reader) as Hjpeg.
  destruct (@ChangeIcon _ (sample_lib 200 "{}") _ tt "sodium"
              (Some (mkEditProjectIconParams "jpg" nil_Reader)) [])
    as [|[[p [[res|] [err|]]] w']] eqn:Hrun;
    try (vm_compute in Hrun; discriminate).
  by rewrite (Hjpeg p _ w' eq_refl).
Defined.

Lemma Schedule_refuses_other_statuses_witness :
  @Schedule _ (sample_lib 200 "{}") (sample_client (sample_lib 200 "{}"))
    tt "sodium" (Some (mkScheduleProjectParams 0%Z "rejected")) []
  = Return ((None, Some (errors_New "project_status is not requestable")), []).
Proof.
  apply (@Schedule_refuses_other_statuses _ (sample_lib 200 "{}")).
  apply (bool_decide_unpack _). by vm_compute.
Defined.


End labrinth_witnesses.
